(** * Parameter resolution of the Autoscale continuous-deployment tool

    A shallow embedding of [src/index.js]: the value generators
    ([genString], [genPassword], [genAvailabilityZones]), the override
    table ([genOverriddenParamMap], [genOverriddenParam]), the directive
    dispatch of [parseParams], and the two subcommands [create] and
    [deploy] under [main].

    JavaScript strings are sequences of UTF-16 code units: [list Z].
    Exceptions and promise rejections are the [Throw] outcome of a small
    state-and-error monad whose state holds the console output, the
    files written and the number of [Math.random()] values drawn so far.
    What the outside
    world answers (the AWS command line, the file system, the random
    number generator, the clock) is a [World] record the functions read. *)

From Stdlib Require Import QArith Qround String Ascii.
From stdpp Require Import prelude gmap.

Local Open Scope Z_scope.
Local Set Warnings "-register-all".

(** ** Strings *)

Abbreviation jsstring := (list Z).

Definition code (a : ascii) : Z := Z.of_nat (nat_of_ascii a).

(** A string literal of the source, as code units. *)
Definition str (s : string) : jsstring := map code (list_ascii_of_string s).
Arguments str : simpl never.

(** WhiteSpace and LineTerminator code units: what [trim] strips and what
    the class [\S] excludes. *)
Definition is_space (c : Z) : bool :=
  ((9 <=? c) && (c <=? 13)) || (c =? 32) || (c =? 160) || (c =? 5760)
  || ((8192 <=? c) && (c <=? 8202)) || (c =? 8232) || (c =? 8233)
  || (c =? 8239) || (c =? 8287) || (c =? 12288) || (c =? 65279).

Definition is_digit (c : Z) : bool := (48 <=? c) && (c <=? 57).
Definition is_upper (c : Z) : bool := (65 <=? c) && (c <=? 90).
Definition is_lower (c : Z) : bool := (97 <=? c) && (c <=? 122).
Definition not_space (c : Z) : bool := negb (is_space c).

Fixpoint trimStart (s : jsstring) : jsstring :=
  match s with
  | c :: s' => if is_space c then trimStart s' else s
  | [] => []
  end.

Definition trim (s : jsstring) : jsstring :=
  reverse (trimStart (reverse (trimStart s))).

Fixpoint startsWith (s prefix : jsstring) : bool :=
  match prefix, s with
  | [], _ => true
  | p :: prefix', c :: s' => (c =? p) && startsWith s' prefix'
  | _ :: _, [] => false
  end.

Definition str_eqb (a b : jsstring) : bool := bool_decide (a = b).

(** [a.join(sep)] on an array of strings. *)
Fixpoint join (sep : jsstring) (l : list jsstring) : jsstring :=
  match l with
  | [] => []
  | [x] => x
  | x :: l' => x ++ sep ++ join sep l'
  end.

(** [s.split(' ')]: the pieces between occurrences of one separator unit. *)
Fixpoint split (sep : Z) (s : jsstring) : list jsstring :=
  match s with
  | [] => [[]]
  | c :: s' =>
      if c =? sep then [] :: split sep s'
      else match split sep s' with
           | tok :: toks => (c :: tok) :: toks
           | [] => [[c]]
           end
  end.

(** Decimal digits of a number, as a template literal prints an integer
    below 10^21. *)
Fixpoint digits_of_pos (fuel : nat) (n : Z) (acc : jsstring) : jsstring :=
  match fuel with
  | O => acc
  | S fuel' =>
      let acc' := (48 + n mod 10) :: acc in
      if n <? 10 then acc' else digits_of_pos fuel' (n / 10) acc'
  end.

Definition Z_to_str (n : Z) : jsstring :=
  if n <? 0 then 45 :: digits_of_pos (S (Z.to_nat (Z.log2 (- n)))) (- n) []
  else digits_of_pos (S (Z.to_nat (Z.log2 n))) n [].

(** The value of a run of decimal digits. *)
Definition parse_digits (s : jsstring) : Z :=
  fold_left (fun acc c => 10 * acc + (c - 48)) s 0.

(** ** Values *)

(** What [JSON.parse] can produce, plus [undefined] for an absent
    property.  Numbers are the integers of magnitude up to 2^53, which a
    double holds exactly; the other numbers of JSON (fractions, larger
    ones) are not in the model. *)
Inductive jsval :=
| VUndefined
| VNull
| VBool (b : bool)
| VNum (n : Z)
| VStr (s : jsstring)
| VArr (items : list jsval)
| VObj (fields : list (jsstring * jsval)).

(** ToBoolean. *)
Definition truthy (v : jsval) : bool :=
  match v with
  | VUndefined | VNull => false
  | VBool b => b
  | VNum n => negb (n =? 0)
  | VStr s => match s with [] => false | _ => true end
  | VArr _ | VObj _ => true
  end.

(** [String(v)]: [None] is a TypeError.  A parsed object has no callable
    member, so an own member named [toString] hides
    [Object.prototype.toString] and leaves nothing to call: the
    conversion throws.  An array prints its elements with commas between
    them, [null] as nothing.  A number prints all its digits, which is
    what [String] does up to 2^53. *)
Fixpoint ToString (v : jsval) : option jsstring :=
  match v with
  | VUndefined => Some (str "undefined")
  | VNull => Some (str "null")
  | VBool true => Some (str "true")
  | VBool false => Some (str "false")
  | VNum n => Some (Z_to_str n)
  | VStr s => Some s
  | VArr items =>
      option_map (join (str ","))
        ((fix elements (l : list jsval) : option (list jsstring) :=
            match l with
            | [] => Some []
            | x :: l' =>
                match (match x with
                       | VUndefined | VNull => Some []
                       | _ => ToString x
                       end), elements l' with
                | Some t, Some ts => Some (t :: ts)
                | _, _ => None
                end
            end) items)
  | VObj fields =>
      if existsb (fun kv => bool_decide (kv.1 = str "toString")) fields then None
      else Some (str "[object Object]")
  end.

(** [Number(v)] at the two kinds of argument the source passes: a capture
    of the group around [\d*] (a possibly empty run of digits) or the literal [0] of a
    fallback array.  Every other argument gives NaN in JavaScript; NaN is
    mapped to [0] here, which is how each consumer of the result treats
    it ([i < NaN] is false, [azones.length < NaN] is false,
    [slice(0, NaN)] is [slice(0, 0)]).  A run of digits is read as the
    integer it spells, which is what [Number] gives below 2^53; a longer
    run gives the nearest double, which is not modelled. *)
Definition Number_ (v : jsval) : Z :=
  match v with
  | VNum n => n
  | VStr s => if forallb is_digit s then parse_digits s else 0
  | _ => 0
  end.

(** [a[i]] on an array: [undefined] out of range. *)
Definition index {A} (l : list A) (i : Z) : option A :=
  if i <? 0 then None else l !! Z.to_nat i.

(** [v.name] on a parsed JSON value that is not [null] or [undefined]:
    the own property of an object (the parser leaves one field per
    name); the other values have no property of the name read here,
    [Default]. *)
Definition own_prop (v : jsval) (name : jsstring) : jsval :=
  match v with
  | VObj fields =>
      match list_find (fun kv => bool_decide (kv.1 = name)) fields with
      | Some (_, (_, x)) => x
      | None => VUndefined
      end
  | _ => VUndefined
  end.

(** ** Regular expressions

    A backtracking matcher with the priorities of the ECMAScript
    semantics: alternatives are tried greedy first, and the first
    complete match wins. *)

Inductive regex :=
| Eps                         (* the empty pattern *)
| Chr (c : Z)                 (* a pattern character *)
| Cls (p : Z -> bool)         (* a character class escape: \S, \d *)
| Cat (r1 r2 : regex)
| Opt (r : regex)             (* r? *)
| Star (r : regex)            (* r* *)
| Grp (n : nat) (r : regex).  (* the n-th capturing group *)

Definition Plus (r : regex) : regex := Cat r (Star r).

(** The characters of [s] one after the other, then [rest]. *)
Fixpoint Lits (s : jsstring) (rest : regex) : regex :=
  match s with
  | [] => rest
  | c :: s' => Cat (Chr c) (Lits s' rest)
  end.

Abbreviation caps := (list (option jsstring)).

(** Canonicalize of the [i] flag, as far as it decides a comparison with
    an ASCII pattern character. *)
Definition canonicalize (c : Z) : Z := if is_lower c then c - 32 else c.

Definition chr_matches (ignoreCase : bool) (pat c : Z) : bool :=
  if ignoreCase then canonicalize pat =? canonicalize c else pat =? c.

Section Matcher.
Variable ignoreCase : bool.
Context {R : Type}.

(** [m r s c k]: match [r] at the front of [s] with captures [c], then
    continue with [k] on what is left; [None] is failure, which makes
    the caller try its next alternative.  A turn of a star that consumes
    nothing is refused, as in ECMAScript.  No pattern of the source has a
    group under a star, so the reset of captures at each turn is left
    out. *)
Fixpoint m (r : regex) (s : jsstring) (c : caps)
    (k : jsstring -> caps -> option R) {struct r} : option R :=
  match r with
  | Eps => k s c
  | Chr a =>
      match s with
      | x :: s' => if chr_matches ignoreCase a x then k s' c else None
      | [] => None
      end
  | Cls p =>
      match s with
      | x :: s' => if p x then k s' c else None
      | [] => None
      end
  | Cat r1 r2 => m r1 s c (fun s1 c1 => m r2 s1 c1 k)
  | Opt r1 =>
      match m r1 s c k with
      | Some x => Some x
      | None => k s c
      end
  | Star r1 =>
      (fix loop (fuel : nat) (s : jsstring) (c : caps) {struct fuel} : option R :=
         match fuel with
         | O => k s c
         | S fuel' =>
             match m r1 s c (fun s1 c1 =>
                               if (length s1 <? length s)%nat
                               then loop fuel' s1 c1 else None) with
             | Some x => Some x
             | None => k s c
             end
         end) (length s) s c
  | Grp n r1 =>
      m r1 s c (fun s1 c1 =>
                  k s1 (<[n := Some (take (length s - length s1) s)]> c1))
  end.
End Matcher.

(** A regular expression literal: [anchored] is a leading [^],
    [ignoreCase] the [i] flag.  The [g] flag does not matter to the one
    [exec] each literal of the source gets, which starts at index 0. *)
Record pattern := {
  anchored : bool;
  ignoreCase : bool;
  ngroups : nat;
  body : regex
}.

Definition match_here (p : pattern) (s : jsstring) : option (list jsval) :=
  m (ignoreCase p) (body p) s (replicate (S (ngroups p)) None)
    (fun s' c =>
       Some (map (fun g => match g with Some t => VStr t | None => VUndefined end)
               (<[0%nat := Some (take (length s - length s') s)]> c))).

Fixpoint search (p : pattern) (s : jsstring) : option (list jsval) :=
  match match_here p s with
  | Some r => Some r
  | None => match s with
            | [] => None
            | _ :: s' => search p s'
            end
  end.

(** [re.exec(s)]: the match array ([0] the whole match, then the groups,
    [undefined] for a group that took no part), or [None] for [null]. *)
Definition exec (p : pattern) (s : jsstring) : option (list jsval) :=
  if anchored p then match_here p s else search p s.

(** [matches[i]]. *)
Definition at_ (a : list jsval) (i : nat) : jsval := default VUndefined (a !! i).

(** The literal [/^\$\[cd_randchar\S?(D)\S*\]/g], where [D] stands for [\d*]. *)
Definition re_randchar : pattern :=
  {| anchored := true; ignoreCase := false; ngroups := 1;
     body := Lits (str "$[cd_randchar")
               (Cat (Opt (Cls not_space))
                  (Cat (Grp 1 (Star (Cls is_digit)))
                     (Cat (Star (Cls not_space)) (Chr 93)))) |}.

(** The literal [/^\$\[cd_genaz\S?(D)\S*\]/g], where [D] stands for [\d*]. *)
Definition re_genaz : pattern :=
  {| anchored := true; ignoreCase := false; ngroups := 1;
     body := Lits (str "$[cd_genaz")
               (Cat (Opt (Cls not_space))
                  (Cat (Grp 1 (Star (Cls is_digit)))
                     (Cat (Star (Cls not_space)) (Chr 93)))) |}.

(** The literal [/^\$\[cd_genpass(_strong)?\S?(D)\S*\]/g], where [D] stands for [\d*]. *)
Definition re_genpass : pattern :=
  {| anchored := true; ignoreCase := false; ngroups := 2;
     body := Lits (str "$[cd_genpass")
               (Cat (Opt (Grp 1 (Lits (str "_strong") Eps)))
                  (Cat (Opt (Cls not_space))
                     (Cat (Grp 2 (Star (Cls is_digit)))
                        (Cat (Star (Cls not_space)) (Chr 93))))) |}.

(** [/Name=(\S+),Value=(\S+)/gi] *)
Definition re_override : pattern :=
  {| anchored := false; ignoreCase := true; ngroups := 2;
     body := Lits (str "Name=")
               (Cat (Grp 1 (Plus (Cls not_space)))
                  (Lits (str ",Value=") (Grp 2 (Plus (Cls not_space))))) |}.

(** ** Outcomes, state and the outside world *)

(** What a [throw] or a rejected promise carries. *)
Inductive exn :=
| TypeError                       (* raised by the engine or by [path] *)
| RangeError                      (* raised by the engine: too many arguments *)
| Error (message : jsstring)      (* [new Error(message)] *)
| Reason (text : jsstring)        (* [reject(stderr)]: a plain string *)
| IOError (message : jsstring).   (* raised by [fs] or [JSON.parse] *)

(** [Throw] is an exception inside a function, or the rejection of the
    promise an [async] function returns.  [Fatal] is an exception raised
    inside a callback the event loop runs: no [try] block and no promise
    sees it, and it ends the process. *)
Inductive outcome (A : Type) :=
| Ok (a : A)
| Throw (e : exn)
| Fatal (e : exn).
Arguments Ok {A} a.
Arguments Throw {A} e.
Arguments Fatal {A} e.

Inductive line :=
| console_info (s : jsstring)
| console_log (s : jsstring)
| console_error (e : exn).

(** A parameter entry of the parameter document. *)
Record entry := {
  ParameterKey : jsstring;
  ParameterValue : jsval
}.

(** A file [saveJsonToFile] wrote holds [JSON.stringify] of a document;
    [files] keeps the document. *)
Record state := {
  drawn : nat;                             (* calls of [Math.random()] so far *)
  env : gmap jsstring jsstring;            (* [process.env] *)
  out : list line;                         (* console output, oldest first *)
  files : gmap jsstring (list entry)       (* the files written, by path *)
}.

Definition M (A : Type) : Type := state -> outcome A * state.

Definition ret {A} (a : A) : M A := fun st => (Ok a, st).
Definition throw {A} (e : exn) : M A := fun st => (Throw e, st).
Definition fatal {A} (e : exn) : M A := fun st => (Fatal e, st).
Definition bind {A B} (c : M A) (f : A -> M B) : M B :=
  fun st =>
    match c st with
    | (Ok a, st') => f a st'
    | (Throw e, st') => (Throw e, st')
    | (Fatal e, st') => (Fatal e, st')
    end.

Declare Scope js_scope.
Delimit Scope js_scope with js.
Notation "'let*' x ':=' c 'in' k" := (bind c (fun x => k))
  (at level 10, x name, c at level 100, k at level 200) : js_scope.
Notation "'run' c 'in' k" := (bind c (fun _ => k))
  (at level 10, c at level 100, k at level 200) : js_scope.
Local Open Scope js_scope.

(** [try { body } catch (error) { handler(error) }] *)
Definition try_catch {A} (body : M A) (handler : exn -> M A) : M A :=
  fun st =>
    match body st with
    | (Throw e, st') => handler e st'
    | r => r
    end.

Definition console (l : line) : M unit :=
  fun st => (Ok tt, {| drawn := drawn st; env := env st; out := out st ++ [l];
                       files := files st |}).

Definition setenv (name value : jsstring) : M unit :=
  fun st => (Ok tt, {| drawn := drawn st; env := <[name := value]> (env st); out := out st;
                       files := files st |}).

(** [process.env.NAME] inside a template literal. *)
Definition getenv (name : jsstring) : M jsstring :=
  fun st => (Ok (match env st !! name with
                 | Some v => v
                 | None => str "undefined"
                 end), st).

(** The result of a shell command handed to its callback. *)
Record exit := { exit_code : Z; stdout : jsstring; stderr : jsstring }.

Inductive answer (A : Type) :=
| Done (a : A)
| Failed (e : exn).
Arguments Done {A} a.
Arguments Failed {A} e.

(** The template, as far as it is read: [Parameters] maps a parameter
    name to its descriptor; [None] is a template without [Parameters].
    Names inherited from [Object.prototype] are not modelled: their
    values carry no [Default], so they read like absent names. *)
Record template := { Parameters : option (gmap jsstring jsval) }.

(** The collaborators of the program. *)
Record World := {
  (** the n-th value [Math.random()] returns *)
  Math_random : nat -> Q;
  (** how many arguments beyond 65535 a call may have before the engine
      raises a RangeError: no engine refuses fewer than 65535 *)
  argument_headroom : N;
  (** [azones.sort(cmp)] under the random comparator of
      [genAvailabilityZones], when the first draw of the comparator is
      the n-th: the order the engine leaves, and how many times it calls
      the comparator, are its own *)
  sort_random : nat -> list jsstring -> list jsstring;
  sort_comparisons : nat -> list jsstring -> nat;
  (** [fetchAWSAvailabilityZones()]: the names of the zones whose state
      is available, or the rejection of the zone lister *)
  fetchAWSAvailabilityZones : answer (list jsstring);
  (** [SHELL.exec(command, ...)]: what the callback receives *)
  SHELL_exec : jsstring -> exit;
  (** [JSON.parse(FS.readFileSync(path))] on the template file and on the
      parameter file ([None]: the file holds [null]) *)
  read_template : jsstring -> answer template;
  read_params : jsstring -> answer (option (list entry));
  (** [FS.writeFileSync(path, ...)]: whether the file can be written *)
  FS_writeFileSync : jsstring -> answer unit;
  PATH_join : list jsstring -> jsstring;
  PATH_resolve : jsstring -> jsstring;
  Date_now : Z
}.

Definition of_answer {A} (a : answer A) : M A :=
  match a with
  | Done x => ret x
  | Failed e => throw e
  end.

(** ** Value generators *)

(** [Math.floor(r * n)], the product taken exactly. *)
Definition floor_mul (r : Q) (n : Z) : Z := Qfloor (r * inject_Z n).

Definition len {A} (l : list A) : Z := Z.of_nat (length l).

(** [s.charCodeAt(0)]: [None] is NaN. *)
Definition charCodeAt0 (s : jsstring) : option Z := head s.

(** [String.fromCharCode] on its arguments: each code through ToUint16. *)
Definition fromCharCode (charCodes : list (option Z)) : jsstring :=
  map (fun c => match c with Some z => z mod 65536 | None => 0 end) charCodes.

(** The number of arguments one call may have. *)
Definition argument_limit (w : World) : Z := 65535 + Z.of_N (argument_headroom w).

Definition ranges : list (Z * Z) := [(48, 57); (65, 90); (97, 122)].

Definition symbols : list jsstring :=
  [str "!"; str "@"; str "#"; str "$"; str "%"; str "^"; str "&"; str "*"; str "+"; str "-"].

Section Program.
Variable w : World.

Definition random : M Q :=
  fun st => (Ok (Math_random w (drawn st)),
             {| drawn := S (drawn st); env := env st; out := out st; files := files st |}).

(** [f(...args)]: the spread passes one argument per element, and the
    engine raises a RangeError when they are more than it accepts. *)
Definition spread {A B} (f : list A -> B) (args : list A) : M B :=
  if len args <=? argument_limit w then ret (f args) else throw RangeError.

(** One turn of the loop of [genString]: the code it pushes. *)
Definition genCharCode (specialChars : list jsstring) : M (option Z) :=
  let size := len ranges + (if 0 <? len specialChars then 1 else 0) in
  let* r := random in
  let s := floor_mul r size in
  match index ranges s with
  | None =>
      let* r' := random in
      match index specialChars (floor_mul r' (len specialChars)) with
      | Some sym => ret (charCodeAt0 sym)
      | None => throw TypeError
      end
  | Some range =>
      let* r' := random in
      ret (Some (floor_mul r' (range.2 - range.1) + range.1))
  end.

Fixpoint genCharCodes (turns : nat) (specialChars : list jsstring)
    : M (list (option Z)) :=
  match turns with
  | O => ret []
  | S turns' =>
      let* c := genCharCode specialChars in
      let* cs := genCharCodes turns' specialChars in
      ret (c :: cs)
  end.

(** The loop, then the call with one argument per code.  A length whose
    codes do not fit the memory of the process is outside the model. *)
Definition genString (length : Z) (specialChars : list jsstring) : M jsstring :=
  let* charCodes := genCharCodes (Z.to_nat length) specialChars in
  spread fromCharCode charCodes.

Definition genPassword (length : Z) (containSymbol : bool) : M jsstring :=
  let specialChars := if containSymbol then symbols else [] in
  genString length specialChars.

(** [a.slice(0, num)] *)
Definition slice0 {A} (num : Z) (a : list A) : list A :=
  if num <? 0 then take (Z.to_nat (len a + num)) a else take (Z.to_nat num) a.

(** [azones.sort(() => Math.round(Math.random() * Math.floor(Math.random() * 100)) % 2)]:
    each call of the comparator draws twice. *)
Definition sort_shuffling (azones : list jsstring) : M (list jsstring) :=
  fun st => (Ok (sort_random w (drawn st) azones),
             {| drawn := drawn st + 2 * sort_comparisons w (drawn st) azones;
                env := env st; out := out st; files := files st |}).

Definition genAvailabilityZones (num : Z) : M jsstring :=
  let* azones := of_answer (fetchAWSAvailabilityZones w) in
  if len azones <? num then
    let* region := getenv (str "AWS_DEFAULT_REGION") in
    throw (Error (str "parameter value generation error:"
                  ++ str " not enough availability zones in AWS region: " ++ region ++ str "."
                  ++ str " request: " ++ Z_to_str num ++ str ", got: " ++ Z_to_str (len azones)))
  else
    let* sorted := sort_shuffling azones in
    ret (join (str ",") (slice0 num sorted)).

(** ** The override table *)

(** [new Map(a)]: the pairs are set in order, a later one replacing an
    earlier one of the same key.  After the filter of
    [genOverriddenParamMap] every name is a string, and so is every
    value, since the second group takes part in every match. *)
Definition new_Map (a : list (jsval * jsval)) : gmap jsstring jsstring :=
  foldl (fun mp nv => match nv with
                      | (VStr name, VStr value) => <[name := value]> mp
                      | _ => mp
                      end) ∅ a.

Definition genOverriddenParamMap (inputString : jsstring) : gmap jsstring jsstring :=
  let a :=
    filter (fun nv => Is_true (truthy nv.1))
      (map (fun nvp =>
              let ms := default [VNull; VNull; VNull] (exec re_override nvp) in
              (at_ ms 1, at_ ms 2))
         (split 32 inputString)) in
  new_Map a.

Definition genOverriddenParam (key : jsstring)
    (paramVariableMap : gmap jsstring jsstring) : jsstring :=
  match paramVariableMap !! key with
  | Some value => if truthy (VStr value) then value else []
  | None => []
  end.

(** ** Directive dispatch *)

(** [v.trim()], for whatever [v] is: only a string has the method. *)
Definition method_trim (v : jsval) : M jsstring :=
  match v with
  | VStr s => ret (trim s)
  | _ => throw TypeError
  end.

Definition paramUseTemplateDefault (param : entry) : M bool :=
  if truthy (ParameterValue param) then
    let* t := method_trim (ParameterValue param) in
    ret (str_eqb t (str "$[cd_default]"))
  else ret false.

Definition paramIsOverridden (param : entry) : M bool :=
  if truthy (ParameterValue param) then
    let* t := method_trim (ParameterValue param) in
    ret (str_eqb t (str "$[cd_overridden]"))
  else ret false.

Definition getTemplateDefault (cfnTemplateParams : option (gmap jsstring jsval))
    (paramKey : jsstring) : M jsstring :=
  match cfnTemplateParams with
  | None => throw TypeError
  | Some ps =>
      let descriptor := default VUndefined (ps !! paramKey) in
      if truthy descriptor then
        match own_prop descriptor (str "Default") with
        | VUndefined => ret []
        | d => match ToString d with
               | Some s => ret s
               | None => throw TypeError
               end
        end
      else ret []
  end.

(** [param.ParameterValue = value] *)
Definition assign (param : entry) (value : jsstring) : entry :=
  {| ParameterKey := ParameterKey param; ParameterValue := VStr value |}.

(** Where the callback of [paramJSON.map] stands when the synchronous
    part of [parseParams] is over: its promise is settled, or it waits
    at one of the two [await]s. *)
Inductive promise :=
| Settled (o : outcome entry)
| AwaitPassword (param : entry) (password : jsstring)
| AwaitZones (param : entry) (num : Z).

Section Resolve.
Variable cfnTemplateParams : option (gmap jsstring jsval).
Variable paramVariableMap : gmap jsstring jsstring.

(** The last [else] block of the callback, up to its [await]: [v] is
    the trimmed raw value. *)
Definition directive (param : entry) (v : jsstring) : M promise :=
  if startsWith v (str "$[cd_randchar") then
    let matches := default [VNum 0; VNum 0] (exec re_randchar v) in
    if truthy (at_ matches 1) then
      let* value := genString (Number_ (at_ matches 1)) [] in
      ret (Settled (Ok (assign param value)))
    else ret (Settled (Ok param))
  else if startsWith v (str "$[cd_genaz") then
    let matches := default [VStr []; VNum 0] (exec re_genaz v) in
    ret (AwaitZones param (Number_ (at_ matches 1)))
  else if startsWith v (str "$[cd_genpass") then
    let matches := default [VStr []; VBool false; VNum 0] (exec re_genpass v) in
    let* password := genPassword (Number_ (at_ matches 2)) (truthy (at_ matches 1)) in
    ret (AwaitPassword param password)
  else ret (Settled (Ok param)).

(** The callback up to its first [await]. *)
Definition callback (param : entry) : M promise :=
  let* useDefault := paramUseTemplateDefault param in
  if useDefault then
    let* value := getTemplateDefault cfnTemplateParams (ParameterKey param) in
    ret (Settled (Ok (assign param value)))
  else
    let* overridden := paramIsOverridden param in
    if overridden then
      let value := genOverriddenParam (ParameterKey param) paramVariableMap in
      run console (console_info (str "Overridden value: [" ++ value
                                 ++ str "], for parameter: " ++ ParameterKey param)) in
      ret (Settled (Ok (assign param value)))
    else
      let* v := method_trim (ParameterValue param) in
      directive param v.

(** An exception in an [async] callback rejects its promise; the
    [map] goes on with the next entry. *)
Definition settle (r : outcome promise * state) : outcome promise * state :=
  match r with
  | (Throw e, st') => (Ok (Settled (Throw e)), st')
  | _ => r
  end.

Definition async_callback (param : entry) : M promise :=
  fun st => settle (callback param st).

(** The rest of the callback, after its [await]. *)
Definition resume (p : promise) : M (outcome entry) :=
  match p with
  | Settled o => ret o
  | AwaitPassword param password =>
      run console (console_info (str "Generated password: [" ++ password
                                 ++ str "], for parameter: " ++ ParameterKey param)) in
      ret (Ok (assign param password))
  | AwaitZones param num =>
      fun st =>
        match genAvailabilityZones num st with
        | (Ok value, st') => (Ok (Ok (assign param value)), st')
        | (Throw e, st') => (Ok (Throw e), st')
        | (Fatal e, st') => (Fatal e, st')
        end
  end.

Fixpoint mapM {A B} (f : A -> M B) (l : list A) : M (list B) :=
  match l with
  | [] => ret []
  | x :: l' =>
      let* y := f x in
      let* ys := mapM f l' in
      ret (y :: ys)
  end.

(** The first rejection among the settled promises, if any. *)
Fixpoint first_rejection (os : list (outcome entry)) : option exn :=
  match os with
  | [] => None
  | Ok _ :: os' => first_rejection os'
  | Throw e :: _ | Fatal e :: _ => Some e
  end.

Definition fulfilled (os : list (outcome entry)) : list entry :=
  omap (fun o => match o with Ok e => Some e | _ => None end) os.

(** How a promise stands at the end of the synchronous part: rejected
    already, or not. *)
Definition rejected_early (p : promise) : outcome entry :=
  match p with
  | Settled o => o
  | AwaitPassword param _ | AwaitZones param _ => Ok param
  end.

(** [Promise.all]: rejected with the rejection that comes first in
    time, else fulfilled with every entry in document order.  The
    promises rejected in the synchronous part come before the ones
    rejected by the zone lister; within each kind the model takes
    them in document order. *)
Definition Promise_all (started : list promise) (settled : list (outcome entry))
    : M (list entry) :=
  match first_rejection (map rejected_early started) with
  | Some e => throw e
  | None =>
      match first_rejection settled with
      | Some e => throw e
      | None => ret (fulfilled settled)
      end
  end.

(** [parseParams]: [None] is a [paramJSON] of [null].  The console
    lines and the draws of the synchronous parts come first, then the
    lines written and the draws made after an [await].  The callbacks
    that wait for the zone lister are resumed in document order; the
    order in which the lister answers them is the shell's own, and
    decides only which draws each sort sees. *)
Definition parseParams (paramJSON : option (list entry)) : M (list entry) :=
  match paramJSON with
  | None => throw TypeError
  | Some params =>
      let* started := mapM async_callback params in
      let* settled := mapM resume started in
      Promise_all started settled
  end.
End Resolve.

(** ** The wrappers around the shell and the file system *)

Definition nl : jsstring := [10].
Definition dquote : jsstring := [34].

Definition makeTempDir : M jsstring :=
  let r := SHELL_exec w (str "mktemp -d") in
  if negb (exit_code r =? 0) then throw (Reason (stderr r))
  else ret (trim (stdout r)).

Definition unpackZip (filePath : jsstring) : M jsstring :=
  let* tempDir := makeTempDir in
  let r := SHELL_exec w (str "unzip -o -d " ++ tempDir ++ str " " ++ filePath) in
  if negb (exit_code r =? 0) then throw (Reason (stderr r))
  else ret tempDir.

(** [PATH.join] raises a TypeError on an argument that is not a string:
    [keyPrefix] is [None] when the option was not given. *)
Definition uploadDeploymentPackageToS3 (sourceDir bucket : jsstring)
    (keyPrefix : option jsstring) : M jsstring :=
  match keyPrefix with
  | None => throw TypeError
  | Some prefix =>
      let s3Destination := str "s3://" ++ PATH_join w [bucket; prefix] in
      let command := str "aws s3 sync " ++ sourceDir ++ str " " ++ s3Destination
                     ++ str " --no-progress" in
      let r := SHELL_exec w command in
      if negb (exit_code r =? 0) then throw (Reason (stderr r))
      else ret s3Destination
  end.

(** The template file is read inside the callback of [SHELL.exec]: an
    exception of [readFileAsJson] there is outside the promise. *)
Definition loadTemplateFromS3 (bucket keyPrefix templateKey : jsstring) : M template :=
  let* name := genString 32 [] in
  let filePath := str "/tmp/" ++ name in
  let command := str "aws s3api get-object --bucket " ++ bucket ++ str " --key "
                 ++ dquote ++ PATH_join w [keyPrefix; templateKey] ++ dquote
                 ++ str " " ++ filePath in
  run console (console_info (str "Loading file from S3 using: " ++ nl ++ command)) in
  let r := SHELL_exec w command in
  if negb (exit_code r =? 0) then throw (Reason (stderr r))
  else
    run console (console_info (str "File object is loaded.")) in
    match read_template w filePath with
    | Done t => ret t
    | Failed e => fatal e
    end.

Definition saveJsonToFile (filePath : jsstring) (json : list entry) : M unit :=
  run of_answer (FS_writeFileSync w filePath) in
  run (fun st => (Ok tt, {| drawn := drawn st; env := env st; out := out st;
                            files := <[filePath := json]> (files st) |})) in
  console (console_info (str "File is saved: " ++ filePath)).

Definition createCloudFormationStack (stackName templateUrl paramFilePath : jsstring)
    (disableRollback : bool) : M jsstring :=
  let command :=
    str "aws cloudformation create-stack --stack-name " ++ stackName
    ++ str " --template-url " ++ dquote ++ templateUrl ++ dquote
    ++ str " --parameters file://" ++ PATH_resolve w paramFilePath
    ++ (if disableRollback then str " --disable-rollback" else str " --no-disable-rollback")
    ++ str " --capabilities " ++ dquote ++ str "CAPABILITY_IAM" ++ dquote
    ++ str " " ++ dquote ++ str "CAPABILITY_NAMED_IAM" ++ dquote in
  run console (console_info (str "Creating CloudFormation stack using: " ++ nl ++ command)) in
  let r := SHELL_exec w command in
  if negb (exit_code r =? 0) then throw (Reason (trim (stderr r)))
  else
    run console (console_info (str "Stack creation is completed.")) in
    let* region := getenv (str "AWS_DEFAULT_REGION") in
    run console (console_info (str "Stack name: " ++ stackName ++ nl
                               ++ str "Region: " ++ region)) in
    ret (trim (stdout r)).

(** ** The subcommands *)

Record create_options := {
  c_accessKeyId : jsstring;
  c_secretAccessKey : jsstring;
  c_awsRegion : jsstring;
  paramFile : option jsstring;
  override : option jsstring
}.

Record deploy_options := {
  d_accessKeyId : jsstring;
  d_secretAccessKey : jsstring;
  d_awsRegion : jsstring;
  bucket : jsstring;
  keyPrefix : option jsstring
}.

Definition initAWSCLI (accessKeyId secretAccessKey awsRegion : jsstring) : M unit :=
  run setenv (str "AWS_ACCESS_KEY_ID") (trim accessKeyId) in
  run setenv (str "AWS_SECRET_ACCESS_KEY") (trim secretAccessKey) in
  run setenv (str "AWS_DEFAULT_REGION") (trim awsRegion) in
  setenv (str "AWS_DEFAULT_OUTPUT") (str "json").

(** The table [create] resolves with: the override specification, if
    any, and then the four [set] calls. *)
Definition overrideTable (override : option jsstring) (bucket keyPrefix : jsstring)
    : gmap jsstring jsstring :=
  let paramVariableMap :=
    match override with
    | Some o => if truthy (VStr o) then genOverriddenParamMap o else ∅
    | None => ∅
    end in
  <[str "QSS3KeyPrefix" := keyPrefix ++ str "/"]>
    (<[str "QSS3BucketName" := bucket]>
       (<[str "S3KeyPrefix" := keyPrefix ++ str "/"]>
          (<[str "S3BucketName" := bucket]> paramVariableMap))).

(** The body of the [try] block of [create]. *)
Definition create_guarded (bucket keyPrefix templatePath : jsstring)
    (command : create_options) (templateUrl paramFilePath : jsstring)
    (paramVariableMap : gmap jsstring jsstring) : M unit :=
  run console (console_info (str "Loading template from:" ++ nl ++ templateUrl)) in
  let* templateJSON := loadTemplateFromS3 bucket keyPrefix templatePath in
  run console (console_info (str "Parsing template parameters:")) in
  let* paramJSON :=
    match paramFile command with
    | Some f => if truthy (VStr f) then of_answer (read_params w f) else ret None
    | None => ret None
    end in
  let* resolved := parseParams (Parameters templateJSON) paramVariableMap paramJSON in
  run saveJsonToFile paramFilePath resolved in
  let stackName := str "FortiGate-Autoscale-CI-" ++ Z_to_str (Date_now w) in
  run createCloudFormationStack stackName templateUrl paramFilePath true in
  ret tt.

Definition create (bucket keyPrefix templatePath : jsstring)
    (command : create_options) : M unit :=
  run initAWSCLI (c_accessKeyId command) (c_secretAccessKey command) (c_awsRegion command) in
  let templateUrl :=
    str "https://s3.amazonaws.com/" ++ PATH_join w [bucket; keyPrefix; templatePath] in
  let paramVariableMap := overrideTable (override command) bucket keyPrefix in
  let* name := genString 32 [] in
  let paramFilePath := str "/tmp/" ++ name in
  try_catch
    (create_guarded bucket keyPrefix templatePath command templateUrl paramFilePath
       paramVariableMap)
    (fun error => console (console_error error)).

Definition deploy (filePath : jsstring) (command : deploy_options) : M bool :=
  run initAWSCLI (d_accessKeyId command) (d_secretAccessKey command) (d_awsRegion command) in
  let* sourceDir := unpackZip filePath in
  let* s3Dest := uploadDeploymentPackageToS3 sourceDir (bucket command) (keyPrefix command) in
  run console (console_log (str "package is extracted to s3 bucket:" ++ nl ++ s3Dest)) in
  run console (console_log (str "deploy complete.")) in
  ret true.

(** The command line, once [commander] has parsed it. *)
Inductive argv :=
| Deploy (filePath : jsstring) (command : deploy_options)
| Create (bucket keyPrefix templatePath : jsstring) (command : create_options).

(** [program.parseAsync(process.argv)]: runs the action of the
    subcommand and settles as the promise of the action does. *)
Definition parseAsync (a : argv) : M unit :=
  match a with
  | Deploy filePath command => run deploy filePath command in ret tt
  | Create bucket keyPrefix templatePath command =>
      create bucket keyPrefix templatePath command
  end.

Definition main (a : argv) : M unit :=
  run parseAsync a in
  console (console_log (str "program ends.")).
End Program.

(** ** Sample collaborators *)

(** A world in which every command succeeds and three zones are
    available. *)
Definition sample_world : World := {|
  Math_random := fun n => (Z.of_nat (n * 37 mod 101) # 101)%Q;
  argument_headroom := 34465;
  sort_random := fun _ l => reverse l;
  sort_comparisons := fun _ l => (length l - 1)%nat;
  fetchAWSAvailabilityZones := Done [str "a"; str "b"; str "c"];
  SHELL_exec := fun _ => {| exit_code := 0; stdout := str "ok "; stderr := [] |};
  read_template := fun _ =>
    Done {| Parameters :=
              Some {[ str "DBPassword" := VObj [(str "Default", VStr (str "x"))] ]} |};
  read_params := fun _ =>
    Done (Some [ {| ParameterKey := str "DBPassword";
                    ParameterValue := VStr (str "$[cd_genpass_strong8]") |} ]);
  FS_writeFileSync := fun _ => Done tt;
  PATH_join := fun l => join (str "/") l;
  PATH_resolve := fun p => p;
  Date_now := 1600000000000
|}.

(** The same world with a shell in which every command exits with 1. *)
Definition failing_world : World := {|
  Math_random := Math_random sample_world;
  argument_headroom := argument_headroom sample_world;
  sort_random := sort_random sample_world;
  sort_comparisons := sort_comparisons sample_world;
  fetchAWSAvailabilityZones := Failed (Reason (str "aws: not found"));
  SHELL_exec := fun _ => {| exit_code := 1; stdout := []; stderr := str "not found" |};
  read_template := read_template sample_world;
  read_params := read_params sample_world;
  FS_writeFileSync := FS_writeFileSync sample_world;
  PATH_join := PATH_join sample_world;
  PATH_resolve := PATH_resolve sample_world;
  Date_now := Date_now sample_world
|}.

Definition sample_document : list entry :=
  [ {| ParameterKey := str "A"; ParameterValue := VStr (str "plain") |};
    {| ParameterKey := str "B"; ParameterValue := VStr (str " $[cd_default]") |};
    {| ParameterKey := str "C"; ParameterValue := VStr (str "$[cd_overridden] ") |};
    {| ParameterKey := str "D"; ParameterValue := VStr (str "$[cd_randchar_4]") |};
    {| ParameterKey := str "E"; ParameterValue := VStr (str "$[cd_genaz_2]") |};
    {| ParameterKey := str "F"; ParameterValue := VStr (str "$[cd_genpass_strong_6]") |} ].

Definition initial : state := {| drawn := 0; env := ∅; out := []; files := ∅ |}.

(** [Math.random()] returns a number of the interval from 0 inclusive to
    1 exclusive. *)
Definition random_in_unit_interval (w : World) : Prop :=
  ∀ n, (0 <= Math_random w n)%Q ∧ (Math_random w n < 1)%Q.

(** ** Vocabulary of the properties *)

(** The codes the three ranges can give: the upper end of a range is
    never reached. *)
Definition range_code (z : Z) : Prop :=
  48 ≤ z < 57 ∨ 65 ≤ z < 90 ∨ 97 ≤ z < 122.

(** A state that differs from [st] by random draws only. *)
Definition drew (st st' : state) : Prop :=
  env st' = env st ∧ out st' = out st ∧ files st' = files st.

(** [st] after the zones [azones] are sorted: two draws for each call of
    the comparator. *)
Definition shuffled (w : World) (azones : list jsstring) (st : state) : state :=
  {| drawn := drawn st + 2 * sort_comparisons w (drawn st) azones;
     env := env st; out := out st; files := files st |}.

(** What [process.env.AWS_DEFAULT_REGION] prints as. *)
Definition region_text (st : state) : jsstring :=
  match env st !! str "AWS_DEFAULT_REGION" with
  | Some v => v
  | None => str "undefined"
  end.

(** What the engine itself raises in the synchronous part of a callback:
    a TypeError, or the RangeError of a call with too many arguments. *)
Definition engine_error (e : exn) : Prop := e = TypeError ∨ e = RangeError.

(** An outcome the synchronous part of a callback can have: a value or
    an error of the engine. *)
Definition benign {A} (o : outcome A) : Prop :=
  match o with
  | Ok _ => True
  | Throw e => engine_error e
  | Fatal _ => False
  end.

(** The trimmed raw value of [param] is the directive [d]. *)
Definition directive_is (param : entry) (d : jsstring) : Prop :=
  ∃ raw, ParameterValue param = VStr raw ∧ trim raw = d.

(** The schema has no default for [key]: the name is absent, or its
    descriptor has no [Default]. *)
Definition lacks_default (ps : gmap jsstring jsval) (key : jsstring) : Prop :=
  ps !! key = None ∨ ∃ d, ps !! key = Some d ∧ own_prop d (str "Default") = VUndefined.

Section Vocabulary.
Variable cfnTemplateParams : option (gmap jsstring jsval).
Variable paramVariableMap : gmap jsstring jsstring.

(** [e] is a resolution of [param]: the same key, a string as value,
    and the empty string where a default or an override is asked for
    and there is none. *)
Definition resolved_from (param e : entry) : Prop :=
  ParameterKey e = ParameterKey param ∧
  ∃ s, ParameterValue e = VStr s ∧
    (directive_is param (str "$[cd_default]") →
     ∀ ps, cfnTemplateParams = Some ps → lacks_default ps (ParameterKey param) → s = []) ∧
    (directive_is param (str "$[cd_overridden]") →
     paramVariableMap !! ParameterKey param = None → s = []).

(** [param] holds a string that is neither of the two exact directives. *)
Definition plain (param : entry) : Prop :=
  (∃ raw, ParameterValue param = VStr raw) ∧
  ¬ directive_is param (str "$[cd_default]") ∧
  ¬ directive_is param (str "$[cd_overridden]").

(** What the synchronous part of the callback may leave for [param]. *)
Definition started_for (param : entry) (p : promise) : Prop :=
  match p with
  | Settled (Ok e) => resolved_from param e
  | Settled (Throw e) => engine_error e
  | Settled (Fatal _) => False
  | AwaitPassword param' _ | AwaitZones param' _ => param' = param ∧ plain param
  end.

(** What the callback of [param] may settle to. *)
Definition settled_for (param : entry) (o : outcome entry) : Prop :=
match o with
| Ok e => resolved_from param e
| Throw _ => True
| Fatal _ => False
end.
End Vocabulary.

(** What the synchronous part leaves for an entry, and that it comes
    from the callback of the entry. *)
Definition started (w : World) (cfn : option (gmap jsstring jsval))
    (mp : gmap jsstring jsstring) (param : entry) (p : promise) : Prop :=
  started_for cfn mp param p
  ∧ ((∀ s, ParameterValue param ≠ VStr s) → p = Settled (Throw TypeError))
  ∧ ∃ st0 st1, async_callback w cfn mp param st0 = (Ok p, st1).

(** [matched ic r s c s' c']: [r] can match the front of [s], leaving
    [s'], and turn the captures [c] into [c']; no priority among the
    alternatives. *)
Inductive matched (ic : bool) : regex → jsstring → caps → jsstring → caps → Prop :=
| matched_Eps s c : matched ic Eps s c s c
| matched_Chr a x s c :
    chr_matches ic a x = true → matched ic (Chr a) (x :: s) c s c
| matched_Cls p x s c :
    p x = true → matched ic (Cls p) (x :: s) c s c
| matched_Cat r1 r2 s c s1 c1 s2 c2 :
    matched ic r1 s c s1 c1 → matched ic r2 s1 c1 s2 c2 →
    matched ic (Cat r1 r2) s c s2 c2
| matched_Opt_some r s c s' c' :
    matched ic r s c s' c' → matched ic (Opt r) s c s' c'
| matched_Opt_none r s c : matched ic (Opt r) s c s c
| matched_Star_more r s c s1 c1 s2 c2 :
    matched ic r s c s1 c1 → matched ic (Star r) s1 c1 s2 c2 →
    matched ic (Star r) s c s2 c2
| matched_Star_stop r s c : matched ic (Star r) s c s c
| matched_Grp n r s c s' c' :
    matched ic r s c s' c' →
    matched ic (Grp n r) s c s' (<[n := Some (take (length s - length s') s)]> c').

(** A regular expression without capturing groups. *)
Fixpoint groupless (r : regex) : bool :=
  match r with
  | Eps | Chr _ | Cls _ => true
  | Cat r1 r2 => groupless r1 && groupless r2
  | Opt r1 | Star r1 => groupless r1
  | Grp _ _ => false
  end.

(** ** Vocabulary of the further properties *)

(** The loop [m] runs for a star, by itself. *)
Definition star_loop (ic : bool) {R : Type} (r1 : regex)
    (k : jsstring → caps → option R) : nat → jsstring → caps → option R :=
  fix loop (fuel : nat) (s : jsstring) (c : caps) {struct fuel} : option R :=
    match fuel with
    | O => k s c
    | S fuel' =>
        match m ic r1 s c (fun s1 c1 =>
                             if (length s1 <? length s)%nat
                             then loop fuel' s1 c1 else None) with
        | Some x => Some x
        | None => k s c
        end
    end.

(** What the three directive patterns share after their prefix: an
    optional [\S], the digits as group [n], any [\S] and the closing
    bracket. *)
Definition number_tail (n : nat) : regex :=
  Cat (Opt (Cls not_space))
    (Cat (Grp n (Star (Cls is_digit)))
       (Cat (Star (Cls not_space)) (Chr 93))).

(** A trimmed raw value that is no directive: none of the two exact
    directives and none of the three prefixes. *)
Definition literal (v : jsstring) : bool :=
  negb (str_eqb v (str "$[cd_default]"))
  && negb (str_eqb v (str "$[cd_overridden]"))
  && negb (startsWith v (str "$[cd_randchar"))
  && negb (startsWith v (str "$[cd_genaz"))
  && negb (startsWith v (str "$[cd_genpass")).

(** Every number in [v], also inside an array, is an integer a double
    holds exactly: of magnitude up to 2^53. *)
Fixpoint exact_numbers (v : jsval) : bool :=
  match v with
  | VNum n => Z.abs n <=? 2 ^ 53
  | VArr items => forallb exact_numbers items
  | _ => true
  end.

(** A digit, an upper-case or a lower-case letter. *)
Definition alphanumeric (c : Z) : Prop :=
  is_digit c = true ∨ is_upper c = true ∨ is_lower c = true.

(** The trimmed raw value of [param] starts with [$[cd_genaz]. *)
Definition asks_zones (param : entry) : Prop :=
  ∃ raw, ParameterValue param = VStr raw
         ∧ startsWith (trim raw) (str "$[cd_genaz") = true.

(** A token of the override specification, as the help text of the
    option writes it. *)
Definition override_token (name value : jsstring) : jsstring :=
  str "Name=" ++ name ++ str ",Value=" ++ value.

(** Name and value pairs written out as an override specification:
    tokens with one space between them. *)
Definition serialize (pairs : list (jsstring * jsstring)) : jsstring :=
  join [32] (map (λ nv, override_token nv.1 nv.2) pairs).

(** A name and a value a token can carry and give back: not empty, no
    white space, and no comma in the value. *)
Definition token_pair (nv : jsstring * jsstring) : Prop :=
  nv.1 ≠ [] ∧ nv.2 ≠ []
  ∧ forallb not_space nv.1 = true ∧ forallb not_space nv.2 = true
  ∧ Forall (λ y, y ≠ 44) nv.2.

(** [st] with more lines on the console. *)
Definition logged (st : state) (lines : list line) : state :=
  {| drawn := drawn st; env := env st; out := out st ++ lines; files := files st |}.

(** Every command the shell is given exits with 0. *)
Definition shell_succeeds (w : World) : Prop :=
  ∀ command, exit_code (SHELL_exec w command) = 0.

(** Every command the shell is given exits with another code than 0. *)
Definition shell_fails (w : World) : Prop :=
  ∀ command, exit_code (SHELL_exec w command) ≠ 0.

(** The keys [create] sets after the table is built. *)
Definition synthetic_keys : list jsstring :=
  [str "S3BucketName"; str "S3KeyPrefix"; str "QSS3BucketName"; str "QSS3KeyPrefix"].

(** [create] has no document to resolve: no parameter file is named, the
    name is the empty string, or the file holds [null]. *)
Definition no_document (w : World) (command : create_options) : Prop :=
  match paramFile command with
  | None => True
  | Some f => f = [] ∨ read_params w f = Done None
  end.

(** The sample world with a template file that cannot be read. *)
Definition unreadable_world : World := {|
  Math_random := Math_random sample_world;
  argument_headroom := argument_headroom sample_world;
  sort_random := sort_random sample_world;
  sort_comparisons := sort_comparisons sample_world;
  fetchAWSAvailabilityZones := fetchAWSAvailabilityZones sample_world;
  SHELL_exec := SHELL_exec sample_world;
  read_template := fun _ => Failed (IOError (str "ENOENT"));
  read_params := read_params sample_world;
  FS_writeFileSync := FS_writeFileSync sample_world;
  PATH_join := PATH_join sample_world;
  PATH_resolve := PATH_resolve sample_world;
  Date_now := Date_now sample_world
|}.






(** The sample world with a parameter file that cannot be read. *)
Definition undocumented_world : World := {|
  Math_random := Math_random sample_world;
  argument_headroom := argument_headroom sample_world;
  sort_random := sort_random sample_world;
  sort_comparisons := sort_comparisons sample_world;
  fetchAWSAvailabilityZones := fetchAWSAvailabilityZones sample_world;
  SHELL_exec := SHELL_exec sample_world;
  read_template := read_template sample_world;
  read_params := fun _ => Failed (IOError (str "ENOENT"));
  FS_writeFileSync := FS_writeFileSync sample_world;
  PATH_join := PATH_join sample_world;
  PATH_resolve := PATH_resolve sample_world;
  Date_now := Date_now sample_world
|}.

(** The options of a sample [create] run. *)
Definition sample_options (file : option jsstring) : create_options :=
  {| c_accessKeyId := str "id"; c_secretAccessKey := str "secret";
     c_awsRegion := str " us-east-1 "; paramFile := file; override := None |}.

(** * Properties *)

(** ** The matcher on the directives of the source *)

Example exec_randchar_sep :
  exec re_randchar (str "$[cd_randchar_16]")
  = Some [VStr (str "$[cd_randchar_16]"); VStr (str "16")].
Proof. vm_compute. reflexivity. Qed.

Example exec_randchar_nosep :
  exec re_randchar (str "$[cd_randchar16]")
  = Some [VStr (str "$[cd_randchar16]"); VStr (str "6")].
Proof. vm_compute. reflexivity. Qed.

Example exec_genpass_strong8 :
  exec re_genpass (str "$[cd_genpass_strong8]")
  = Some [VStr (str "$[cd_genpass_strong8]"); VStr (str "_strong"); VStr []].
Proof. vm_compute. reflexivity. Qed.

Example exec_genpass_plain :
  exec re_genpass (str "$[cd_genpass_12] tail")
  = Some [VStr (str "$[cd_genpass_12]"); VUndefined; VStr (str "12")].
Proof. vm_compute. reflexivity. Qed.

Example exec_override_greedy :
  exec re_override (str "xname=a,Value=b,value=c")
  = Some [VStr (str "name=a,Value=b,value=c"); VStr (str "a,Value=b"); VStr (str "c")].
Proof. vm_compute. reflexivity. Qed.

Example exec_override_none : exec re_override (str "Name=A") = None.
Proof. vm_compute. reflexivity. Qed.

Example override_table_last_wins :
  genOverriddenParamMap (str "Name=A,Value=1 junk Name=B,Value=2 Name=A,Value=3")
  = {[ str "A" := str "3"; str "B" := str "2" ]}.
Proof. vm_compute. reflexivity. Qed.

Example override_table_empty : genOverriddenParamMap [] = ∅.
Proof. vm_compute. reflexivity. Qed.

(** ** The generators *)

Lemma floor_mul_range (r : Q) (n : Z) :
  (0 <= r)%Q → (r < 1)%Q → 0 < n → 0 ≤ floor_mul r n < n.
Proof.
  destruct r as [a b].
  unfold floor_mul, Qle, Qlt, Qmult, Qfloor, inject_Z; simpl.
  intros Ha Hb Hn. rewrite Pos.mul_1_r. split.
  - apply Z.div_pos; nia.
  - apply Z.div_lt_upper_bound; nia.
Qed.

Lemma drew_trans st1 st2 st3 : drew st1 st2 → drew st2 st3 → drew st1 st3.
Proof. intros (? & ? & ?) (? & ? & ?). repeat split; congruence. Qed.

Section Generators.
Variable w : World.
Hypothesis Hrandom : random_in_unit_interval w.

Lemma genCharCode_spec (specialChars : list jsstring) (st : state) :
  ∃ c st', genCharCode w specialChars st = (Ok c, st') ∧ drew st st' ∧
    ((∃ z, c = Some z ∧ range_code z)
     ∨ (∃ sym, sym ∈ specialChars ∧ c = charCodeAt0 sym)).
Proof.
  unfold genCharCode, bind, random; simpl.
  set (size := len ranges + (if 0 <? len specialChars then 1 else 0)).
  destruct (Hrandom (drawn st)) as [Hr0 Hr1].
  destruct (Hrandom (S (drawn st))) as [Hr0' Hr1'].
  assert (Hsize : 0 < size ≤ 4).
  { unfold size, len; simpl. destruct (0 <? _); lia. }
  pose proof (floor_mul_range _ size Hr0 Hr1 (proj1 Hsize)) as Hs.
  destruct (decide (floor_mul (Math_random w (drawn st)) size = 3)) as [Hs3 | Hs3].
  - rewrite Hs3; simpl.
    assert (Hlen : 0 < len specialChars).
    { rewrite Hs3 in Hs. unfold size in Hs. unfold len at 1 in Hs; simpl in Hs.
      destruct (0 <? len specialChars) eqn:E; lia. }
    pose proof (floor_mul_range _ (len specialChars) Hr0' Hr1' Hlen) as Hi.
    unfold index.
    destruct (floor_mul _ (len specialChars) <? 0) eqn:E; [lia |].
    destruct (specialChars !! Z.to_nat _) as [sym |] eqn:Hsym.
    + simpl. eexists _, _; split; [reflexivity |]. split; [by repeat split |].
      right. exists sym. split; [| reflexivity].
      by eapply list_elem_of_lookup_2.
    + apply lookup_ge_None in Hsym. unfold len in *. lia.
  - pose proof (floor_mul_range _ (57 - 48) Hr0' Hr1' ltac:(lia)) as Hdigit.
    pose proof (floor_mul_range _ (90 - 65) Hr0' Hr1' ltac:(lia)) as Hupper.
    pose proof (floor_mul_range _ (122 - 97) Hr0' Hr1' ltac:(lia)) as Hlower.
    assert (Hcase : floor_mul (Math_random w (drawn st)) size = 0
                    ∨ floor_mul (Math_random w (drawn st)) size = 1
                    ∨ floor_mul (Math_random w (drawn st)) size = 2) by lia.
    destruct Hcase as [Hc | [Hc | Hc]]; rewrite Hc; simpl;
      (eexists _, _; split; [reflexivity |]; split; [by repeat split |];
       left; eexists; split; [reflexivity |]; unfold range_code; lia).
Qed.

Lemma genCharCodes_spec (specialChars : list jsstring) (turns : nat) (st : state) :
  ∃ cs st', genCharCodes w turns specialChars st = (Ok cs, st') ∧ drew st st' ∧
    length cs = turns ∧
    Forall (λ c, (∃ z, c = Some z ∧ range_code z)
                 ∨ (∃ sym, sym ∈ specialChars ∧ c = charCodeAt0 sym)) cs.
Proof.
  revert st. induction turns as [| turns IH]; intros st.
  - exists [], st. repeat split; constructor.
  - destruct (genCharCode_spec specialChars st) as (c & st1 & Hc & Hd1 & Hin).
    destruct (IH st1) as (cs & st2 & Hcs & Hd2 & Hlen & Hall).
    exists (c :: cs), st2. simpl. unfold bind at 1. rewrite Hc.
    unfold bind at 1. rewrite Hcs. simpl.
    split; [reflexivity |]. split; [by eapply drew_trans |].
    split; [by rewrite Hlen | by constructor].
Qed.
End Generators.

Lemma sample_random_ok : random_in_unit_interval sample_world.
Proof.
  intros n. unfold Qle, Qlt; simpl.
  pose proof (Nat.mod_upper_bound (n * 37) 101 ltac:(lia)). lia.
Qed.

Lemma fromCharCode_alphabet (specialChars : list jsstring) (cs : list (option Z)) :
  Forall (λ sym, ∃ z, sym = [z] ∧ 0 ≤ z < 65536) specialChars →
  Forall (λ c, (∃ z, c = Some z ∧ range_code z)
               ∨ (∃ sym, sym ∈ specialChars ∧ c = charCodeAt0 sym)) cs →
  Forall (λ c, is_digit c = true ∨ is_upper c = true ∨ is_lower c = true
               ∨ [c] ∈ specialChars) (fromCharCode cs).
Proof.
  intros Hsyms Hall. unfold fromCharCode. apply Forall_map.
  eapply Forall_impl; [exact Hall |]. simpl.
  intros c [(z & -> & Hz) | (sym & Hsym & ->)].
  - unfold range_code in Hz. rewrite Z.mod_small by lia.
    unfold is_digit, is_upper, is_lower.
    destruct Hz as [Hz | [Hz | Hz]]; [left | right; left | right; right; left]; lia.
  - right; right; right.
    rewrite Forall_forall in Hsyms. destruct (Hsyms _ Hsym) as (z & -> & Hz).
    simpl. by rewrite Z.mod_small by lia.
Qed.

Lemma symbols_are_characters :
  Forall (λ sym, ∃ z, sym = [z] ∧ 0 ≤ z < 65536) symbols.
Proof.
  repeat constructor; eexists; (split; [reflexivity | vm_compute; split; congruence]).
Qed.

Lemma argument_limit_floor (w : World) : 65535 ≤ argument_limit w.
Proof. unfold argument_limit. lia. Qed.

(** [genString] up to the limit of the engine: the codes of the loop,
    through [String.fromCharCode]. *)
Lemma genString_within (w : World) (L : Z) (specialChars : list jsstring) (st : state) :
  random_in_unit_interval w →
  L ≤ argument_limit w →
  ∃ cs st',
    genString w L specialChars st = (Ok (fromCharCode cs), st') ∧ drew st st' ∧
    length cs = Z.to_nat L ∧
    Forall (λ c, (∃ z, c = Some z ∧ range_code z)
                 ∨ (∃ sym, sym ∈ specialChars ∧ c = charCodeAt0 sym)) cs.
Proof.
  intros Hrandom HL.
  destruct (genCharCodes_spec w Hrandom specialChars (Z.to_nat L) st)
    as (cs & st' & Hcs & Hdrew & Hlen & Hall).
  exists cs, st'. unfold genString, bind. rewrite Hcs. unfold spread.
  pose proof (argument_limit_floor w) as Hfloor.
  destruct (Z.leb_spec (len cs) (argument_limit w)) as [_ | Hover];
    [done | unfold len in Hover; lia].
Qed.

(** [genString] beyond the limit of the engine: the loop runs, and the
    call of [String.fromCharCode] raises a RangeError. *)
Lemma genString_beyond (w : World) (L : Z) (specialChars : list jsstring) (st : state) :
  random_in_unit_interval w →
  argument_limit w < L →
  ∃ st', genString w L specialChars st = (Throw RangeError, st') ∧ drew st st'.
Proof.
  intros Hrandom HL.
  destruct (genCharCodes_spec w Hrandom specialChars (Z.to_nat L) st)
    as (cs & st' & Hcs & Hdrew & Hlen & _).
  exists st'. unfold genString, bind. rewrite Hcs. unfold spread.
  destruct (Z.leb_spec (len cs) (argument_limit w)) as [Hin | _];
    [unfold len in Hin; lia | done].
Qed.

(** C7, as the code has it: for every length [L] from 0 up to the number
    of arguments the engine accepts in one call, [genString] returns (it
    does not throw) a string of exactly [L] code units, each a digit, an
    upper-case or a lower-case letter, or one of the supplied
    one-character symbols; for [L = 0] the string is empty. *)
Theorem genString_length_and_alphabet
    (w : World) (L : Z) (specialChars : list jsstring) (st : state) :
  random_in_unit_interval w →
  0 ≤ L ≤ argument_limit w →
  Forall (λ sym, ∃ z, sym = [z] ∧ 0 ≤ z < 65536) specialChars →
  ∃ s st', genString w L specialChars st = (Ok s, st') ∧
    len s = L ∧
    Forall (λ c, is_digit c = true ∨ is_upper c = true ∨ is_lower c = true
                 ∨ [c] ∈ specialChars) s ∧
    (L = 0 → s = []).
Proof.
  intros Hrandom [HL Hlimit] Hsyms.
  destruct (genString_within w L specialChars st Hrandom Hlimit)
    as (cs & st' & Hgen & _ & Hlen & Hall).
  exists (fromCharCode cs), st'.
  split; [exact Hgen |]. split; [| split].
  - unfold len, fromCharCode. rewrite length_map, Hlen. lia.
  - by apply fromCharCode_alphabet.
  - intros ->. simpl in Hlen. by destruct cs.
Qed.

Lemma genString_length_and_alphabet_witness :
  ∃ s st', genString sample_world 8 symbols initial = (Ok s, st') ∧
    len s = 8 ∧
    Forall (λ c, is_digit c = true ∨ is_upper c = true ∨ is_lower c = true
                 ∨ [c] ∈ symbols) s ∧
    (8 = 0 → s = []).
Proof.
  apply (genString_length_and_alphabet sample_world 8 symbols initial).
  - exact sample_random_ok.
  - vm_compute. split; discriminate.
  - repeat constructor; eexists; (split; [reflexivity | vm_compute; split; congruence]).
Defined.

(** C7 as stated fails: [String.fromCharCode(...charCodes)] gets one
    argument per character, and an engine that accepts 100000 arguments
    raises a RangeError at the length 150000. *)
Lemma genString_throws_on_a_long_request :
  ¬ (∀ (w : World) (L : Z) (specialChars : list jsstring) (st : state),
       random_in_unit_interval w →
       0 ≤ L →
       Forall (λ sym, ∃ z, sym = [z] ∧ 0 ≤ z < 65536) specialChars →
       ∃ s st', genString w L specialChars st = (Ok s, st') ∧
         len s = L ∧
         Forall (λ c, is_digit c = true ∨ is_upper c = true ∨ is_lower c = true
                      ∨ [c] ∈ specialChars) s ∧
         (L = 0 → s = [])).
Proof.
  intros H.
  destruct (H sample_world 150000 [] initial sample_random_ok ltac:(lia) ltac:(constructor))
    as (s & st' & Hok & _).
  destruct (genString_beyond sample_world 150000 [] initial sample_random_ok)
    as (st'' & Hthrow & _); [vm_compute; reflexivity |].
  rewrite Hthrow in Hok. discriminate Hok.
Qed.

(** C8, at the code: with no symbol set, no code unit [genString]
    produces is ['9'] (57), ['Z'] (90) or ['z'] (122): the offset drawn
    inside a range stops one short of its upper end. *)
Theorem genString_never_reaches_range_end
    (w : World) (L : Z) (st : state) (s : jsstring) (st' : state) :
  random_in_unit_interval w →
  genString w L [] st = (Ok s, st') →
  Forall (λ c, c ≠ 57 ∧ c ≠ 90 ∧ c ≠ 122) s.
Proof.
  intros Hrandom Hgen.
  destruct (genCharCodes_spec w Hrandom [] (Z.to_nat L) st)
    as (cs & st1 & Hcs & _ & _ & Hall).
  unfold genString, bind in Hgen. rewrite Hcs in Hgen. unfold spread in Hgen.
  destruct (len cs <=? argument_limit w); [| discriminate Hgen].
  injection Hgen as <- _. unfold fromCharCode. apply Forall_map.
  eapply Forall_impl; [exact Hall |]. simpl.
  intros c [(z & -> & Hz) | (sym & Hsym & _)].
  - unfold range_code in Hz. rewrite Z.mod_small by lia. lia.
  - by apply not_elem_of_nil in Hsym.
Qed.

Lemma genString_never_reaches_range_end_witness :
  Forall (λ c, c ≠ 57 ∧ c ≠ 90 ∧ c ≠ 122) (str "3cU5hAT4fY63").
Proof.
  eapply (genString_never_reaches_range_end sample_world 12 initial).
  - exact sample_random_ok.
  - vm_compute. reflexivity.
Defined.

(** C6: when more zones are requested than the zone lister returned,
    [genAvailabilityZones] throws an [Error] whose message gives the
    region, the requested count and the count obtained. *)
Theorem genAvailabilityZones_insufficient
    (w : World) (azones : list jsstring) (num : Z) (st : state) :
  fetchAWSAvailabilityZones w = Done azones →
  len azones < num →
  genAvailabilityZones w num st =
    (Throw (Error (str "parameter value generation error: not enough availability zones in AWS region: "
                   ++ region_text st ++ str ". request: " ++ Z_to_str num
                   ++ str ", got: " ++ Z_to_str (len azones))), st).
Proof.
  intros Hfetch Hlt. unfold genAvailabilityZones, bind. rewrite Hfetch. simpl.
  destruct (len azones <? num) eqn:E; [| lia].
  unfold getenv, region_text, throw. destruct st as [d e o f]; simpl.
  repeat f_equal.
Qed.

Lemma genAvailabilityZones_insufficient_witness :
  genAvailabilityZones sample_world 5 initial =
    (Throw (Error (str "parameter value generation error: not enough availability zones in AWS region: undefined. request: 5, got: 3")), initial).
Proof.
  apply (genAvailabilityZones_insufficient sample_world [str "a"; str "b"; str "c"] 5 initial).
  - reflexivity.
  - vm_compute. reflexivity.
Defined.

(** ** The callback of [parseParams] *)

Lemma genCharCode_benign w specialChars st : benign (genCharCode w specialChars st).1.
Proof.
  unfold genCharCode, bind, random; simpl.
  destruct (index ranges _); simpl; [done |].
  destruct (index specialChars _); simpl; [done | by left].
Qed.

Lemma genCharCodes_benign w turns specialChars st :
  benign (genCharCodes w turns specialChars st).1.
Proof.
  revert st. induction turns as [| turns IH]; intros st; simpl; [done |].
  unfold bind at 1. pose proof (genCharCode_benign w specialChars st) as Hc.
  destruct (genCharCode w specialChars st) as [[c | e | e] st1]; simpl in *; try done.
  unfold bind. pose proof (IH st1) as Hcs.
  destruct (genCharCodes w turns specialChars st1) as [[cs | e | e] st2]; simpl in *; done.
Qed.

Lemma genString_benign w L specialChars st : benign (genString w L specialChars st).1.
Proof.
  unfold genString, bind.
  pose proof (genCharCodes_benign w (Z.to_nat L) specialChars st) as Hcs.
  destruct (genCharCodes w (Z.to_nat L) specialChars st) as [[cs | e | e] st1];
    simpl in *; try done.
  unfold spread. destruct (len cs <=? argument_limit w); simpl; [done | by right].
Qed.

Lemma genPassword_benign w L strong st : benign (genPassword w L strong st).1.
Proof. apply genString_benign. Qed.

Lemma classic_string (param : entry) :
  (∃ raw, ParameterValue param = VStr raw) ∨ (∀ s, ParameterValue param ≠ VStr s).
Proof. destruct (ParameterValue param); (by right) || (left; by eexists). Qed.

Section Resolved.
Variable cfnTemplateParams : option (gmap jsstring jsval).
Variable paramVariableMap : gmap jsstring jsstring.

Lemma plain_resolved param s :
  plain param → resolved_from cfnTemplateParams paramVariableMap param (assign param s).
Proof.
  intros (_ & Hd & Ho). split; [reflexivity |].
  exists s. split; [reflexivity |]. split; intros; contradiction.
Qed.

Lemma plain_resolved_self param : plain param → resolved_from cfnTemplateParams paramVariableMap param param.
Proof.
  intros ([raw Hraw] & Hd & Ho). split; [reflexivity |].
  exists raw. split; [exact Hraw |]. split; intros; contradiction.
Qed.

Lemma directive_spec w param v st :
  plain param →
  ∃ p st', settle (directive w param v st) = (Ok p, st') ∧ started_for cfnTemplateParams paramVariableMap param p.
Proof.
  intros Hplain. unfold directive.
  destruct (startsWith v (str "$[cd_randchar")).
  { cbv zeta. destruct (truthy _).
    - unfold bind.
      match goal with
      | |- context [genString w ?L [] st] =>
          pose proof (genString_benign w L [] st) as Hb;
          destruct (genString w L [] st) as [[s | e | e] st1]
      end; simpl in *; try done.
      + eexists _, _; split; [reflexivity |]. by apply plain_resolved.
      + by eexists _, _.
    - eexists _, _; split; [reflexivity |]. by apply plain_resolved_self. }
  destruct (startsWith v (str "$[cd_genaz")).
  { eexists _, _; split; [reflexivity |]. by split. }
  destruct (startsWith v (str "$[cd_genpass")).
  { cbv zeta. unfold bind.
    match goal with
    | |- context [genPassword w ?L ?b st] =>
        pose proof (genPassword_benign w L b st) as Hb;
        destruct (genPassword w L b st) as [[s | e | e] st1]
    end; simpl in *; try done.
    + eexists _, _; split; [reflexivity |]. by split.
    + by eexists _, _. }
  eexists _, _; split; [reflexivity |]. by apply plain_resolved_self.
Qed.

Lemma use_default_string key raw st :
  paramUseTemplateDefault {| ParameterKey := key; ParameterValue := VStr raw |} st
  = (Ok (str_eqb (trim raw) (str "$[cd_default]")), st).
Proof. destruct raw; reflexivity. Qed.

Lemma is_overridden_string key raw st :
  paramIsOverridden {| ParameterKey := key; ParameterValue := VStr raw |} st
  = (Ok (str_eqb (trim raw) (str "$[cd_overridden]")), st).
Proof. destruct raw; reflexivity. Qed.

Lemma callback_dispatches w key raw st :
  str_eqb (trim raw) (str "$[cd_default]") = false →
  str_eqb (trim raw) (str "$[cd_overridden]") = false →
  callback w cfnTemplateParams paramVariableMap
    {| ParameterKey := key; ParameterValue := VStr raw |} st
  = directive w {| ParameterKey := key; ParameterValue := VStr raw |} (trim raw) st.
Proof.
  intros Hd Ho. unfold callback, bind.
  rewrite use_default_string, Hd, is_overridden_string, Ho. reflexivity.
Qed.

Lemma callback_not_a_string w param st :
  (∀ s, ParameterValue param ≠ VStr s) →
  callback w cfnTemplateParams paramVariableMap param st = (Throw TypeError, st).
Proof.
  intros Hns. unfold callback, paramUseTemplateDefault, paramIsOverridden, bind.
  destruct param as [key value]; simpl in *.
  destruct value as [| | [|] | n | raw | items | fields]; try reflexivity.
  - simpl. destruct (n =? 0); reflexivity.
  - by destruct (Hns raw).
Qed.

Lemma default_resolved cfn key raw s :
  trim raw = str "$[cd_default]" →
  (∀ ps, cfn = Some ps → lacks_default ps key → s = []) →
  resolved_from cfn paramVariableMap {| ParameterKey := key; ParameterValue := VStr raw |}
    (assign {| ParameterKey := key; ParameterValue := VStr raw |} s).
Proof.
  intros Hd Hs. split; [reflexivity |]. exists s. split; [reflexivity |]. split.
  - intros _. exact Hs.
  - intros (raw' & [= <-] & Ht). rewrite Hd in Ht. vm_compute in Ht. discriminate.
Qed.

Lemma async_callback_spec w param st :
  ∃ p st', async_callback w cfnTemplateParams paramVariableMap param st = (Ok p, st') ∧
    started_for cfnTemplateParams paramVariableMap param p ∧
    ((∀ s, ParameterValue param ≠ VStr s) → p = Settled (Throw TypeError)).
Proof.
  unfold async_callback.
  destruct (classic_string param) as [[raw Hraw] | Hns].
  2: { rewrite callback_not_a_string by exact Hns.
       eexists _, _; split; [reflexivity |]. split; [by left | done]. }
  destruct param as [key value]; simpl in Hraw; subst value.
  unfold callback, bind.
  rewrite use_default_string.
  unfold str_eqb.
  destruct (bool_decide (trim raw = str "$[cd_default]")) eqn:Hd.
  { apply bool_decide_eq_true in Hd. unfold getTemplateDefault. cbn [ParameterKey ParameterValue].
    destruct cfnTemplateParams as [ps |] eqn:Hcfn.
    2: { eexists _, _; split; [reflexivity |]. split; [by left |].
         intros H; by destruct (H raw). }
    destruct (ps !! key) as [d |] eqn:Hps; cbn [default from_option id].
    - destruct (truthy d) eqn:Htruthy.
      + destruct (own_prop d (str "Default")) as [| | b | n | t | items | fields] eqn:Hown;
          try destruct (ToString _) as [printed |];
          (eexists _, _; split; [reflexivity |];
           split; [| intros H; by destruct (H raw)]);
          try (by left);
          (apply default_resolved; [exact Hd |];
           intros ps' Hps' [Hl | (d' & Hl & Hl')]; congruence).
      + eexists _, _; split; [reflexivity |].
        split; [| intros H; by destruct (H raw)].
        by apply default_resolved.
    - eexists _, _; split; [reflexivity |].
      split; [| intros H; by destruct (H raw)].
      by apply default_resolved. }
  apply bool_decide_eq_false in Hd.
  rewrite is_overridden_string. unfold str_eqb.
  destruct (bool_decide (trim raw = str "$[cd_overridden]")) eqn:Ho.
  { apply bool_decide_eq_true in Ho. unfold console. cbn [ParameterKey ParameterValue].
    eexists _, _; split; [reflexivity |].
    split; [| intros H; by destruct (H raw)].
    split; [reflexivity |]. eexists. split; [reflexivity |]. split.
    - intros (raw' & [= <-] & Ht). contradiction.
    - intros _ Hnone. unfold genOverriddenParam. simpl in Hnone. by rewrite Hnone. }
  apply bool_decide_eq_false in Ho.
  unfold method_trim. cbn [ParameterKey ParameterValue]. unfold ret at 1.
  assert (Hplain : plain {| ParameterKey := key; ParameterValue := VStr raw |}).
  { split; [by eexists |]. split; intros (raw' & [= <-] & Ht); contradiction. }
  destruct (directive_spec w _ (trim raw) st Hplain) as (p & st' & Hp & Hstarted).
  exists p, st'. split; [exact Hp |]. split; [exact Hstarted |].
  intros H; by destruct (H raw).
Qed.
End Resolved.

(** ** The whole document *)

Lemma mapM_total {A B} (f : A → M B) (R : A → B → Prop) (l : list A) (st : state) :
  (∀ x st, ∃ y st', f x st = (Ok y, st') ∧ R x y) →
  ∃ ys st', mapM f l st = (Ok ys, st') ∧ Forall2 R l ys.
Proof.
  intros Hf. revert st. induction l as [| x l IH]; intros st.
  - exists [], st. split; [reflexivity | constructor].
  - destruct (Hf x st) as (y & st1 & Hy & HR).
    destruct (IH st1) as (ys & st2 & Hys & HRs).
    exists (y :: ys), st2. simpl. unfold bind at 1. rewrite Hy.
    unfold bind at 1. rewrite Hys. split; [reflexivity | by constructor].
Qed.

Lemma genAvailabilityZones_not_fatal w num st e st' :
  genAvailabilityZones w num st ≠ (Fatal e, st').
Proof.
  unfold genAvailabilityZones, bind, of_answer.
  destruct (fetchAWSAvailabilityZones w) as [azones | e0]; simpl; [| done].
  destruct (len azones <? num); simpl; done.
Qed.

Lemma resume_spec w cfn mp p st :
  ∃ o st', resume w p st = (Ok o, st') ∧
    ∀ param, started_for cfn mp param p → settled_for cfn mp param o.
Proof.
  destruct p as [o | param password | param num]; simpl.
  - exists o, st. split; [reflexivity |]. intros param H. by destruct o.
  - eexists _, _. split; [reflexivity |]. intros param' [<- Hplain].
    by apply plain_resolved.
  - pose proof (genAvailabilityZones_not_fatal w num st) as Hnf.
    destruct (genAvailabilityZones w num st) as [[value | e | e] st1].
    + eexists _, _. split; [reflexivity |]. intros param' [<- Hplain].
      by apply plain_resolved.
    + by eexists _, _.
    + by destruct (Hnf e st1).
Qed.

Lemma Forall2_compose {A B C} (R1 : A → B → Prop) (R2 : B → C → Prop) l1 l2 l3 :
  Forall2 R1 l1 l2 → Forall2 R2 l2 l3 →
  Forall2 (λ a c, ∃ b, R1 a b ∧ R2 b c) l1 l3.
Proof.
  intros H12. revert l3. induction H12; intros l3 H23; inversion H23; subst.
  - constructor.
  - constructor; eauto.
Qed.

Lemma fulfilled_all (os : list (outcome entry)) :
  first_rejection os = None → Forall2 (λ o e, o = Ok e) os (fulfilled os).
Proof.
  induction os as [| [e | e | e] os IH]; simpl; intros H; try discriminate.
  - constructor.
  - constructor; [reflexivity | by apply IH].
Qed.

(** The callback settles its promise as fulfilled, or throws: it never
    hands back a promise that is rejected already. *)
Lemma callback_never_settles_rejected w cfn mp param st e st1 :
  callback w cfn mp param st ≠ (Ok (Settled (Throw e)), st1).
Proof.
  unfold callback, directive, bind, paramUseTemplateDefault, paramIsOverridden, method_trim,
    getTemplateDefault, console, ret, throw.
  repeat case_match; congruence.
Qed.

Lemma settle_origin w cfn mp param st e st1 :
  async_callback w cfn mp param st = (Ok (Settled (Throw e)), st1) →
  callback w cfn mp param st = (Throw e, st1).
Proof.
  unfold async_callback, settle.
  pose proof (callback_never_settles_rejected w cfn mp param st e st1) as Hnever.
  destruct (callback w cfn mp param st) as [[p | e' | e'] st']; congruence.
Qed.

Section Document.
Variable w : World.
Variable cfn : option (gmap jsstring jsval).
Variable mp : gmap jsstring jsstring.

Lemma parseParams_runs (params : list entry) (st : state) :
  ∃ promises settled st',
    parseParams w cfn mp (Some params) st = Promise_all promises settled st' ∧
    Forall2 (started w cfn mp) params promises ∧
    Forall2 (settled_for cfn mp) params settled.
Proof.
  assert (Hstart : ∀ param st0, ∃ p st1,
             async_callback w cfn mp param st0 = (Ok p, st1) ∧ started w cfn mp param p).
  { intros param st0.
    destruct (async_callback_spec cfn mp w param st0) as (p & st1 & Hp & Hfor & Hbad).
    exists p, st1. split; [exact Hp |]. split; [exact Hfor |]. split; [exact Hbad |].
    by exists st0, st1. }
  destruct (mapM_total (async_callback w cfn mp) _ params st Hstart)
    as (promises & st1 & Hs & Hstarted).
  destruct (mapM_total (resume w) _ promises st1 (resume_spec w cfn mp))
    as (settled & st2 & Hr & Hsettled).
  exists promises, settled, st2. unfold parseParams, bind. rewrite Hs, Hr.
  split; [reflexivity |]. split; [exact Hstarted |].
  eapply Forall2_impl; [exact (Forall2_compose _ _ _ _ _ Hstarted Hsettled) |].
  intros param o (p & [Hp _] & Ho). by apply Ho.
Qed.

Lemma resolved_when_fulfilled (params resolved : list entry) (st st' : state) :
  parseParams w cfn mp (Some params) st = (Ok resolved, st') →
  Forall2 (resolved_from cfn mp) params resolved.
Proof.
  destruct (parseParams_runs params st) as (promises & settled & st1 & -> & _ & Hsettled).
  unfold Promise_all.
  destruct (first_rejection (map rejected_early promises)); [discriminate |].
  destruct (first_rejection settled) eqn:Hnone; [discriminate |].
  intros [= <- <-].
  eapply Forall2_impl;
    [exact (Forall2_compose _ _ _ _ _ Hsettled (fulfilled_all settled Hnone)) |].
  intros param e (o & Ho & ->). exact Ho.
Qed.

(** A rejection of the synchronous part is a TypeError, or the
    RangeError the callback of some entry has thrown. *)
Lemma early_rejection_origin (params : list entry) (promises : list promise) (e : exn) :
  Forall2 (started w cfn mp) params promises →
  first_rejection (map rejected_early promises) = Some e →
  e = TypeError
  ∨ (e = RangeError
     ∧ ∃ param st0 st1, param ∈ params
                        ∧ callback w cfn mp param st0 = (Throw RangeError, st1)).
Proof.
  induction 1 as [| param p params promises (Hp & _ & st0 & st1 & Horigin) _ IH]; simpl;
    [discriminate |].
  assert (Hrest : first_rejection (map rejected_early promises) = Some e →
                  e = TypeError
                  ∨ (e = RangeError
                     ∧ ∃ param' st0 st1, param' ∈ param :: params
                          ∧ callback w cfn mp param' st0 = (Throw RangeError, st1))).
  { intros Hsome. destruct (IH Hsome) as [-> | (-> & param' & st2 & st3 & Hin & Hthrown)];
      [by left | right].
    split; [reflexivity |]. exists param', st2, st3. split; [by right | exact Hthrown]. }
  destruct p as [[resolved | e' | e'] | param' password | param' num]; simpl in *;
    try exact Hrest; [| done].
  intros [= ->]. destruct Hp as [-> | ->]; [by left | right].
  split; [reflexivity |]. exists param, st0, st1. split; [by left |].
  by apply settle_origin.
Qed.

Lemma early_rejection (params : list entry) (promises : list promise) :
  Forall2 (started w cfn mp) params promises →
  (∃ param, param ∈ params ∧ ∀ s, ParameterValue param ≠ VStr s) →
  ∃ e, first_rejection (map rejected_early promises) = Some e.
Proof.
  induction 1 as [| param p params promises (Hp & Hbad & _) _ IH]; intros (bad & Hin & Hns).
  - by apply elem_of_nil in Hin.
  - apply elem_of_cons in Hin as [<- | Hin].
    + rewrite (Hbad Hns). by eexists.
    + destruct p as [[e | e | e] | param' pw | param' num]; simpl in *;
        try (apply IH; by exists bad); by eexists.
Qed.
End Document.

(** C10: when some entry of the document has a [ParameterValue] that is
    not a string (absent, [null], a number, ...), the promise of
    [parseParams] is rejected: with the TypeError of a failed call (the
    [trim] of that entry, if no other comes before it), unless the
    callback of an entry has thrown the RangeError of a call with too
    many arguments, which then is the rejection. *)
Theorem non_string_value_rejects_batch
    (w : World) (cfn : option (gmap jsstring jsval)) (mp : gmap jsstring jsstring)
    (params : list entry) (st : state) :
  (∃ param, param ∈ params ∧ ∀ s, ParameterValue param ≠ VStr s) →
  ∃ e st',
    parseParams w cfn mp (Some params) st = (Throw e, st')
    ∧ (e = TypeError
       ∨ (e = RangeError
          ∧ ∃ param st0 st1, param ∈ params
                             ∧ callback w cfn mp param st0 = (Throw RangeError, st1))).
Proof.
  intros Hbad.
  destruct (parseParams_runs w cfn mp params st) as (promises & settled & st1 & -> & Hs & _).
  destruct (early_rejection w cfn mp params promises Hs Hbad) as [e He].
  exists e, st1. unfold Promise_all. rewrite He.
  split; [reflexivity |]. exact (early_rejection_origin w cfn mp params promises e Hs He).
Qed.

Lemma non_string_value_rejects_batch_witness :
  ∃ e st', parseParams sample_world None ∅
             (Some [ {| ParameterKey := str "A"; ParameterValue := VStr (str "plain") |};
                     {| ParameterKey := str "B"; ParameterValue := VNull |};
                     {| ParameterKey := str "C";
                        ParameterValue := VStr (str "$[cd_genpass_4]") |} ])
             initial = (Throw e, st')
           ∧ (e = TypeError
              ∨ (e = RangeError
                 ∧ ∃ param st0 st1,
                     param ∈ [ {| ParameterKey := str "A";
                                  ParameterValue := VStr (str "plain") |};
                               {| ParameterKey := str "B"; ParameterValue := VNull |};
                               {| ParameterKey := str "C";
                                  ParameterValue := VStr (str "$[cd_genpass_4]") |} ]
                     ∧ callback sample_world None ∅ param st0 = (Throw RangeError, st1))).
Proof.
  apply (non_string_value_rejects_batch sample_world None ∅).
  exists {| ParameterKey := str "B"; ParameterValue := VNull |}.
  split; [| discriminate].
  apply elem_of_cons. right. apply elem_of_cons. by left.
Defined.

Lemma parseParams_single_settled w cfn mp param e st st1 :
  callback w cfn mp param st = (Ok (Settled (Ok e)), st1) →
  parseParams w cfn mp (Some [param]) st = (Ok [e], st1).
Proof.
  intros H. unfold parseParams, mapM, bind, async_callback. by rewrite H.
Qed.

Lemma parseParams_single_thrown w cfn mp param e st st1 :
  callback w cfn mp param st = (Throw e, st1) →
  parseParams w cfn mp (Some [param]) st = (Throw e, st1).
Proof.
  intros H. unfold parseParams, mapM, bind, async_callback. by rewrite H.
Qed.

Lemma parseParams_single_password w cfn mp param password st st1 :
  callback w cfn mp param st = (Ok (AwaitPassword param password), st1) →
  parseParams w cfn mp (Some [param]) st
  = (Ok [assign param password],
     {| drawn := drawn st1; env := env st1;
        out := out st1 ++ [console_info (str "Generated password: [" ++ password
                                         ++ str "], for parameter: " ++ ParameterKey param)];
        files := files st1 |}).
Proof.
  intros H. unfold parseParams, mapM, bind, async_callback. by rewrite H.
Qed.

Lemma parseParams_single_zones w cfn mp param num st st1 :
  callback w cfn mp param st = (Ok (AwaitZones param num), st1) →
  parseParams w cfn mp (Some [param]) st
  = match genAvailabilityZones w num st1 with
    | (Ok value, st2) => (Ok [assign param value], st2)
    | (Throw e, st2) => (Throw e, st2)
    | (Fatal e, st2) => (Fatal e, st2)
    end.
Proof.
  intros H. unfold parseParams, mapM, bind, async_callback. rewrite H. simpl.
  by destruct (genAvailabilityZones w num st1) as [[value | e | e] st2].
Qed.

(** C5, at the code: [getTemplateDefault] guards a name that is absent
    from [Parameters] and a descriptor without [Default], but not a
    template without [Parameters].  There an entry of [$[cd_default]]
    rejects the batch with a TypeError, where under a [Parameters] that
    lacks the name the same entry resolves to the empty string. *)
Theorem default_without_parameters_rejects
    (w : World) (ps : gmap jsstring jsval) (mp : gmap jsstring jsstring)
    (key raw : jsstring) (st : state) :
  trim raw = str "$[cd_default]" →
  lacks_default ps key →
  parseParams w None mp (Some [ {| ParameterKey := key; ParameterValue := VStr raw |} ]) st
  = (Throw TypeError, st)
  ∧ parseParams w (Some ps) mp
      (Some [ {| ParameterKey := key; ParameterValue := VStr raw |} ]) st
    = (Ok [ {| ParameterKey := key; ParameterValue := VStr [] |} ], st).
Proof.
  intros Hd Hlacks. split.
  - apply parseParams_single_thrown.
    unfold callback, bind. rewrite use_default_string. unfold str_eqb.
    by rewrite bool_decide_eq_true_2 by exact Hd.
  - apply parseParams_single_settled.
    unfold callback, bind. rewrite use_default_string. unfold str_eqb.
    rewrite bool_decide_eq_true_2 by exact Hd.
    unfold getTemplateDefault. cbn [ParameterKey ParameterValue].
    destruct Hlacks as [Hnone | (d & Hsome & Hown)].
    + by rewrite Hnone.
    + rewrite Hsome. cbn [default from_option id]. rewrite Hown.
      by destruct (truthy d).
Qed.

Lemma default_without_parameters_rejects_witness :
  parseParams sample_world None ∅
    (Some [ {| ParameterKey := str "B"; ParameterValue := VStr (str " $[cd_default]") |} ])
    initial
  = (Throw TypeError, initial)
  ∧ parseParams sample_world (Some ∅) ∅
      (Some [ {| ParameterKey := str "B"; ParameterValue := VStr (str " $[cd_default]") |} ])
      initial
    = (Ok [ {| ParameterKey := str "B"; ParameterValue := VStr [] |} ], initial).
Proof.
  apply (default_without_parameters_rejects sample_world ∅ ∅ (str "B")
           (str " $[cd_default]") initial).
  - vm_compute. reflexivity.
  - left. reflexivity.
Defined.

(** An entry of [$[cd_overridden]] whose key is absent from the override
    table resolves to the empty string. *)
Lemma overridden_without_entry w cfn mp key raw st :
  trim raw = str "$[cd_overridden]" → mp !! key = None →
  ∃ st', parseParams w cfn mp
           (Some [ {| ParameterKey := key; ParameterValue := VStr raw |} ]) st
         = (Ok [ {| ParameterKey := key; ParameterValue := VStr [] |} ], st').
Proof.
  intros Ho Hnone. eexists.
  apply parseParams_single_settled.
  unfold callback, bind. rewrite use_default_string. unfold str_eqb.
  rewrite bool_decide_eq_false_2
    by (rewrite Ho; vm_compute; discriminate).
  rewrite is_overridden_string. unfold str_eqb.
  rewrite bool_decide_eq_true_2 by exact Ho.
  unfold genOverriddenParam. cbn [ParameterKey ParameterValue]. rewrite Hnone.
  reflexivity.
Qed.

(** ** Directives whose number is not read *)

(** No character asked for: no draw, and no argument to pass. *)
Lemma genString_zero w specialChars st : genString w 0 specialChars st = (Ok [], st).
Proof.
  unfold genString, bind, spread. simpl.
  pose proof (argument_limit_floor w) as Hfloor.
  by destruct (Z.leb_spec (len (@nil (option Z))) (argument_limit w)) as [_ | Hover];
    [| unfold len in Hover; simpl in Hover; lia].
Qed.

Lemma callback_genpass_strong8 w cfn mp key st :
  callback w cfn mp
    {| ParameterKey := key; ParameterValue := VStr (str "$[cd_genpass_strong8]") |} st
  = (Ok (AwaitPassword
           {| ParameterKey := key; ParameterValue := VStr (str "$[cd_genpass_strong8]") |}
           []), st).
Proof.
  rewrite callback_dispatches by (vm_compute; reflexivity).
  replace (trim (str "$[cd_genpass_strong8]")) with (str "$[cd_genpass_strong8]")
    by (vm_compute; reflexivity).
  unfold directive.
  replace (startsWith (str "$[cd_genpass_strong8]") (str "$[cd_randchar")) with false
    by (vm_compute; reflexivity).
  replace (startsWith (str "$[cd_genpass_strong8]") (str "$[cd_genaz")) with false
    by (vm_compute; reflexivity).
  replace (startsWith (str "$[cd_genpass_strong8]") (str "$[cd_genpass")) with true
    by (vm_compute; reflexivity).
  replace (exec re_genpass (str "$[cd_genpass_strong8]"))
    with (Some [VStr (str "$[cd_genpass_strong8]"); VStr (str "_strong"); VStr []])
    by (vm_compute; reflexivity).
  cbv zeta. unfold bind, genPassword.
  replace (Number_ (at_ (default [VStr []; VBool false; VNum 0]
                           (Some [VStr (str "$[cd_genpass_strong8]"); VStr (str "_strong");
                                  VStr []])) 2)) with 0 by (vm_compute; reflexivity).
  by rewrite genString_zero.
Qed.

(** C2, at the code: the document
    [[{ParameterKey: "DBPassword", ParameterValue: "$[cd_genpass_strong8]"}]]
    under the schema [{DBPassword: {Default: "x"}}] resolves to the empty
    string, not to eight characters: the optional [\S] of the pattern
    takes the [8], the digit group stays empty, and the password is
    generated with the length [Number] gives for the empty string, 0. *)
Theorem scenario_genpass_strong8_resolves_to_empty
    (w : World) (mp : gmap jsstring jsstring) (st : state) :
  parseParams w
    (Some {[ str "DBPassword" := VObj [(str "Default", VStr (str "x"))] ]}) mp
    (Some [ {| ParameterKey := str "DBPassword";
               ParameterValue := VStr (str "$[cd_genpass_strong8]") |} ]) st
  = (Ok [ {| ParameterKey := str "DBPassword"; ParameterValue := VStr [] |} ],
     {| drawn := drawn st; env := env st;
        out := out st ++ [console_info
                            (str "Generated password: [], for parameter: DBPassword")];
        files := files st |}).
Proof.
  rewrite (parseParams_single_password _ _ _ _ _ _ _ (callback_genpass_strong8 w _ mp _ st)).
  reflexivity.
Qed.

Lemma callback_genaz2 w cfn mp key st :
  callback w cfn mp
    {| ParameterKey := key; ParameterValue := VStr (str "$[cd_genaz2]") |} st
  = (Ok (AwaitZones {| ParameterKey := key; ParameterValue := VStr (str "$[cd_genaz2]") |} 0),
     st).
Proof. vm_compute. reflexivity. Qed.

Lemma genAvailabilityZones_zero w azones st :
  fetchAWSAvailabilityZones w = Done azones →
  genAvailabilityZones w 0 st = (Ok [], shuffled w azones st).
Proof.
  intros Hfetch. unfold genAvailabilityZones, bind. rewrite Hfetch. simpl.
  destruct (Z.ltb_spec (len azones) 0) as [E | E]; [unfold len in E; lia |].
  reflexivity.
Qed.

(** C3, at the code: with the zones [a], [b], [c] available, the document
    [[{ParameterKey: "Zones", ParameterValue: "$[cd_genaz2]"}]] resolves
    to the empty string, not to two zone names: the optional [\S] of the
    pattern takes the [2] and zero zones are requested.  The three zones
    are sorted all the same, which draws from [Math.random]; nothing is
    written. *)
Theorem scenario_genaz2_resolves_to_empty
    (w : World) (mp : gmap jsstring jsstring) (st : state) :
  fetchAWSAvailabilityZones w = Done [str "a"; str "b"; str "c"] →
  parseParams w (Some {[ str "Zones" := VObj [] ]}) mp
    (Some [ {| ParameterKey := str "Zones"; ParameterValue := VStr (str "$[cd_genaz2]") |} ]) st
  = (Ok [ {| ParameterKey := str "Zones"; ParameterValue := VStr [] |} ],
     shuffled w [str "a"; str "b"; str "c"] st).
Proof.
  intros Hfetch.
  rewrite (parseParams_single_zones _ _ _ _ _ _ _ (callback_genaz2 w _ mp _ st)).
  by rewrite (genAvailabilityZones_zero w _ st Hfetch).
Qed.

Lemma scenario_genaz2_resolves_to_empty_witness :
  parseParams sample_world (Some {[ str "Zones" := VObj [] ]}) ∅
    (Some [ {| ParameterKey := str "Zones"; ParameterValue := VStr (str "$[cd_genaz2]") |} ])
    initial
  = (Ok [ {| ParameterKey := str "Zones"; ParameterValue := VStr [] |} ],
     shuffled sample_world [str "a"; str "b"; str "c"] initial).
Proof.
  apply (scenario_genaz2_resolves_to_empty sample_world ∅ initial). reflexivity.
Defined.

Lemma callback_genpass_bare w cfn mp key st :
  callback w cfn mp
    {| ParameterKey := key; ParameterValue := VStr (str "$[cd_genpass]") |} st
  = (Ok (AwaitPassword {| ParameterKey := key; ParameterValue := VStr (str "$[cd_genpass]") |}
           []), st).
Proof.
  rewrite callback_dispatches by (vm_compute; reflexivity).
  replace (trim (str "$[cd_genpass]")) with (str "$[cd_genpass]") by (vm_compute; reflexivity).
  unfold directive.
  replace (startsWith (str "$[cd_genpass]") (str "$[cd_randchar")) with false
    by (vm_compute; reflexivity).
  replace (startsWith (str "$[cd_genpass]") (str "$[cd_genaz")) with false
    by (vm_compute; reflexivity).
  replace (startsWith (str "$[cd_genpass]") (str "$[cd_genpass")) with true
    by (vm_compute; reflexivity).
  replace (exec re_genpass (str "$[cd_genpass]"))
    with (Some [VStr (str "$[cd_genpass]"); VUndefined; VStr []])
    by (vm_compute; reflexivity).
  cbv zeta. unfold bind, genPassword.
  replace (Number_ (at_ (default [VStr []; VBool false; VNum 0]
                           (Some [VStr (str "$[cd_genpass]"); VUndefined; VStr []])) 2))
    with 0 by (vm_compute; reflexivity).
  by rewrite genString_zero.
Qed.

Lemma callback_genaz_bare w cfn mp key st :
  callback w cfn mp
    {| ParameterKey := key; ParameterValue := VStr (str "$[cd_genaz]") |} st
  = (Ok (AwaitZones {| ParameterKey := key; ParameterValue := VStr (str "$[cd_genaz]") |} 0),
     st).
Proof. vm_compute. reflexivity. Qed.

(** C1, at the code: a [$[cd_genpass] directive without digits does not
    keep its raw value: the entry resolves to the empty string; and a
    [$[cd_genaz] directive without digits calls the zone lister and
    resolves to the empty string, or fails as the zone lister does. *)
Theorem digitless_genpass_and_genaz_are_substituted
    (w : World) (cfn : option (gmap jsstring jsval)) (mp : gmap jsstring jsstring)
    (key : jsstring) (st : state) :
  (parseParams w cfn mp
     (Some [ {| ParameterKey := key; ParameterValue := VStr (str "$[cd_genpass]") |} ]) st).1
  = Ok [ {| ParameterKey := key; ParameterValue := VStr [] |} ]
  ∧ (parseParams w cfn mp
       (Some [ {| ParameterKey := key; ParameterValue := VStr (str "$[cd_genaz]") |} ]) st).1
    = match fetchAWSAvailabilityZones w with
      | Done _ => Ok [ {| ParameterKey := key; ParameterValue := VStr [] |} ]
      | Failed e => Throw e
      end.
Proof.
  split.
  - by rewrite (parseParams_single_password _ _ _ _ _ _ _ (callback_genpass_bare w cfn mp key st)).
  - rewrite (parseParams_single_zones _ _ _ _ _ _ _ (callback_genaz_bare w cfn mp key st)).
    destruct (fetchAWSAvailabilityZones w) as [azones | e] eqn:Hfetch.
    + by rewrite (genAvailabilityZones_zero w azones st Hfetch).
    + unfold genAvailabilityZones, bind. by rewrite Hfetch.
Qed.

(** ** The override table of [create] *)

(** C4, as the code has it: the four [set] calls of [create] come after
    the table is built from the override specification, so for the keys
    [S3BucketName], [S3KeyPrefix], [QSS3BucketName] and [QSS3KeyPrefix]
    the synthetic value replaces whatever the user specified. *)
Theorem synthetic_entries_take_precedence
    (override : option jsstring) (bucket keyPrefix : jsstring) :
  overrideTable override bucket keyPrefix !! str "S3BucketName" = Some bucket
  ∧ overrideTable override bucket keyPrefix !! str "S3KeyPrefix" = Some (keyPrefix ++ str "/")
  ∧ overrideTable override bucket keyPrefix !! str "QSS3BucketName" = Some bucket
  ∧ overrideTable override bucket keyPrefix !! str "QSS3KeyPrefix"
    = Some (keyPrefix ++ str "/").
Proof.
  unfold overrideTable. repeat split.
  - rewrite !lookup_insert_ne by (vm_compute; discriminate). apply lookup_insert_eq.
  - rewrite !lookup_insert_ne by (vm_compute; discriminate). apply lookup_insert_eq.
  - rewrite !lookup_insert_ne by (vm_compute; discriminate). apply lookup_insert_eq.
  - apply lookup_insert_eq.
Qed.

(** C4 as stated fails: the user specifies [S3BucketName] and the table
    holds the bucket of the command line. *)
Lemma user_override_does_not_take_precedence :
  ¬ (∀ (spec bucket keyPrefix key value : jsstring),
       genOverriddenParamMap spec !! key = Some value →
       overrideTable (Some spec) bucket keyPrefix !! key = Some value).
Proof.
  intros H.
  specialize (H (str "Name=S3BucketName,Value=mine") (str "bucket") (str "prefix")
                (str "S3BucketName") (str "mine")).
  assert (Hc : overrideTable (Some (str "Name=S3BucketName,Value=mine")) (str "bucket")
                 (str "prefix") !! str "S3BucketName" = Some (str "bucket")).
  { vm_compute. reflexivity. }
  assert (Hu : genOverriddenParamMap (str "Name=S3BucketName,Value=mine")
               !! str "S3BucketName" = Some (str "mine")) by (vm_compute; reflexivity).
  specialize (H Hu). rewrite Hc in H. injection H as H. discriminate H.
Qed.

(** ** The subcommands *)

(** C9, at the code: [deploy] has no [try] block.  When the temporary
    directory cannot be made, the rejection leaves [deploy] and then
    [main]: nothing is written to the console, neither the error nor
    the closing line. *)
Theorem deploy_failure_is_not_caught
    (w : World) (filePath : jsstring) (command : deploy_options) (st : state) :
  exit_code (SHELL_exec w (str "mktemp -d")) ≠ 0 →
  ∃ st', main w (Deploy filePath command) st
         = (Throw (Reason (stderr (SHELL_exec w (str "mktemp -d")))), st')
         ∧ out st' = out st.
Proof.
  intros Hcode. unfold main, parseAsync, deploy, unpackZip, makeTempDir.
  unfold bind at 1 2 3. unfold initAWSCLI, bind, setenv. simpl.
  destruct (exit_code (SHELL_exec w (str "mktemp -d")) =? 0) eqn:E; [lia |].
  simpl. by eexists.
Qed.

Lemma deploy_failure_is_not_caught_witness :
  ∃ st', main failing_world
           (Deploy (str "package.zip")
              {| d_accessKeyId := str "id"; d_secretAccessKey := str "secret";
                 d_awsRegion := str "us-east-1"; bucket := str "bucket";
                 keyPrefix := Some (str "prefix") |}) initial
         = (Throw (Reason (str "not found")), st')
         ∧ out st' = [].
Proof.
  apply (deploy_failure_is_not_caught failing_world (str "package.zip") _ initial).
  vm_compute. discriminate.
Defined.

(** ** What a match of the matcher is *)

Lemma m_sound (ic : bool) {R : Type} (r : regex) :
  ∀ (s : jsstring) (c : caps) (k : jsstring → caps → option R) (res : R),
    m ic r s c k = Some res →
    ∃ s' c', matched ic r s c s' c' ∧ k s' c' = Some res.
Proof.
  induction r as [| a | p | r1 IH1 r2 IH2 | r1 IH1 | r1 IH1 | n r1 IH1];
    intros s c k res; simpl.
  - intros H. exists s, c. split; [constructor | exact H].
  - destruct s as [| x s]; [discriminate |].
    destruct (chr_matches ic a x) eqn:E; [| discriminate].
    intros H. exists s, c. split; [by constructor | exact H].
  - destruct s as [| x s]; [discriminate |].
    destruct (p x) eqn:E; [| discriminate].
    intros H. exists s, c. split; [by constructor | exact H].
  - intros H. apply IH1 in H as (s1 & c1 & H1 & H).
    apply IH2 in H as (s2 & c2 & H2 & H).
    exists s2, c2. split; [by econstructor | exact H].
  - destruct (m ic r1 s c k) as [x |] eqn:E.
    + intros [= ->]. apply IH1 in E as (s' & c' & H1 & H).
      exists s', c'. split; [by constructor | exact H].
    + intros H. exists s, c. split; [by apply matched_Opt_none | exact H].
  - generalize (length s) at 1. intros fuel. revert s c.
    induction fuel as [| fuel IHf]; intros s c.
    + intros H. exists s, c. split; [by apply matched_Star_stop | exact H].
    + destruct (m ic r1 s c _) as [x |] eqn:E.
      * intros [= ->]. apply IH1 in E as (s1 & c1 & H1 & H).
        destruct (length s1 <? length s)%nat; [| discriminate].
        apply IHf in H as (s2 & c2 & H2 & H).
        exists s2, c2. split; [by econstructor | exact H].
      * intros H. exists s, c. split; [by apply matched_Star_stop | exact H].
  - intros H. apply IH1 in H as (s1 & c1 & H1 & H).
    eexists _, _. split; [by constructor | exact H].
Qed.

Lemma matched_Cat_inv ic r1 r2 s c s2 c2 :
  matched ic (Cat r1 r2) s c s2 c2 →
  ∃ s1 c1, matched ic r1 s c s1 c1 ∧ matched ic r2 s1 c1 s2 c2.
Proof. inversion 1; subst; eauto. Qed.

Lemma matched_Grp_inv ic n r s c s' c'' :
  matched ic (Grp n r) s c s' c'' →
  ∃ c', matched ic r s c s' c' ∧ c'' = <[n := Some (take (length s - length s') s)]> c'.
Proof. inversion 1; subst; eauto. Qed.

Lemma matched_Cls_inv ic p s c s' c' :
  matched ic (Cls p) s c s' c' → ∃ x, s = x :: s' ∧ c' = c ∧ p x = true.
Proof. inversion 1; subst; eauto. Qed.

Lemma matched_Chr_inv ic a s c s' c' :
  matched ic (Chr a) s c s' c' → ∃ x, s = x :: s' ∧ c' = c ∧ chr_matches ic a x = true.
Proof. inversion 1; subst; eauto. Qed.

Lemma matched_suffix ic r s c s' c' :
  matched ic r s c s' c' → ∃ pre, s = pre ++ s'.
Proof.
  induction 1 as [s c | a x s c _ | p x s c _ | r1 r2 s c s1 c1 s2 c2 _ [p1 ->] _ [p2 ->]
                 | r s c s' c' _ IH | r s c | r s c s1 c1 s2 c2 _ [p1 ->] _ [p2 ->]
                 | r s c | n r s c s' c' _ IH].
  - by exists [].
  - by exists [x].
  - by exists [x].
  - exists (p1 ++ p2). by rewrite <- app_assoc.
  - exact IH.
  - by exists [].
  - exists (p1 ++ p2). by rewrite <- app_assoc.
  - by exists [].
  - exact IH.
Qed.

Lemma matched_groupless ic r s c s' c' :
  matched ic r s c s' c' → groupless r = true → c' = c.
Proof.
  induction 1; simpl; intros Hg; try reflexivity.
  - apply andb_true_iff in Hg as [Hg1 Hg2].
    rewrite IHmatched2 by exact Hg2. by apply IHmatched1.
  - by apply IHmatched.
  - rewrite IHmatched2 by exact Hg. by apply IHmatched1.
  - discriminate.
Qed.

Lemma matched_Star_Cls ic p s c s' c' :
  matched ic (Star (Cls p)) s c s' c' →
  c' = c ∧ ∃ pre, s = pre ++ s' ∧ forallb p pre = true.
Proof.
  intros H. remember (Star (Cls p)) as r eqn:Hr.
  induction H as [| | | | | | r s c s1 c1 s2 c2 H1 _ H2 IH | r s c |]; try discriminate.
  - injection Hr as ->. specialize (IH eq_refl) as (-> & pre & -> & Hpre).
    apply matched_Cls_inv in H1 as (x & -> & -> & Hx). split; [reflexivity |].
    exists (x :: pre). split; [reflexivity |]. simpl. by rewrite Hx.
  - split; [reflexivity |]. by exists [].
Qed.

Lemma matched_Lits l rest s c s' c' :
  matched false (Lits l rest) s c s' c' →
  ∃ s1, s = l ++ s1 ∧ matched false rest s1 c s' c'.
Proof.
  revert s. induction l as [| a l IH]; intros s; simpl.
  - intros H. by exists s.
  - intros H. apply matched_Cat_inv in H as (s1 & c1 & Ha & H).
    apply matched_Chr_inv in Ha as (x & -> & -> & Hx).
    apply IH in H as (s2 & -> & H).
    exists s2. split; [| exact H].
    unfold chr_matches in Hx. apply Z.eqb_eq in Hx. by subst.
Qed.

(** On a match of the pattern of [$[cd_randchar], the group is a run of
    digits of the subject. *)
Lemma exec_randchar_group (v : jsstring) (ms : list jsval) :
  exec re_randchar v = Some ms →
  ∃ d, at_ ms 1 = VStr d ∧ forallb is_digit d = true ∧ ∀ x, x ∈ d → x ∈ v.
Proof.
  unfold exec, re_randchar, match_here; cbn [anchored ignoreCase ngroups body].
  intros H. apply m_sound in H as (s' & c' & Hm & Hk).
  apply matched_Lits in Hm as (s1 & Hv & Hm).
  apply matched_Cat_inv in Hm as (s2 & c2 & Hopt & Hm).
  pose proof (matched_groupless _ _ _ _ _ _ Hopt eq_refl) as ->.
  apply matched_suffix in Hopt as [p1 ->].
  apply matched_Cat_inv in Hm as (s3 & c3 & Hgrp & Hm).
  pose proof (matched_groupless _ _ _ _ _ _ Hm eq_refl) as ->.
  apply matched_Grp_inv in Hgrp as (c4 & Hstar & ->).
  apply matched_Star_Cls in Hstar as (-> & d & -> & Hd).
  injection Hk as <-.
  exists d. split; [| split].
  - rewrite length_app, Nat.add_sub, take_app_length. reflexivity.
  - exact Hd.
  - intros x Hx. rewrite Hv. set_solver.
Qed.

(** The branch of [$[cd_randchar] has the guard: a directive without
    digits keeps its raw value. *)
Lemma randchar_without_digits_is_unchanged w cfn mp key raw st :
  startsWith (trim raw) (str "$[cd_randchar") = true →
  (∀ x, x ∈ trim raw → is_digit x = false) →
  parseParams w cfn mp (Some [ {| ParameterKey := key; ParameterValue := VStr raw |} ]) st
  = (Ok [ {| ParameterKey := key; ParameterValue := VStr raw |} ], st).
Proof.
  intros Hpre Hnd. apply parseParams_single_settled.
  unfold callback, bind. rewrite use_default_string. unfold str_eqb.
  rewrite bool_decide_eq_false_2
    by (intros E; rewrite E in Hpre; vm_compute in Hpre; discriminate).
  rewrite is_overridden_string. unfold str_eqb.
  rewrite bool_decide_eq_false_2
    by (intros E; rewrite E in Hpre; vm_compute in Hpre; discriminate).
  unfold method_trim. cbn [ParameterValue]. unfold ret at 1. unfold directive.
  rewrite Hpre. cbv zeta.
  destruct (exec re_randchar (trim raw)) as [ms |] eqn:E; cbn [default from_option id].
  - apply exec_randchar_group in E as (d & -> & Hd & Hin).
    destruct d as [| x d]; [reflexivity |].
    simpl in Hd. apply andb_true_iff in Hd as [Hx _].
    rewrite (Hnd x) in Hx; [discriminate |]. apply Hin. by left.
  - reflexivity.
Qed.

(** ** The directives with a separator before the number *)

Lemma callback_genpass_strong_8 w cfn mp key st :
  callback w cfn mp
    {| ParameterKey := key; ParameterValue := VStr (str "$[cd_genpass_strong_8]") |} st
  = (let* password := genPassword w 8 true in
     ret (AwaitPassword
            {| ParameterKey := key; ParameterValue := VStr (str "$[cd_genpass_strong_8]") |}
            password)) st.
Proof.
  rewrite callback_dispatches by (vm_compute; reflexivity).
  replace (trim (str "$[cd_genpass_strong_8]")) with (str "$[cd_genpass_strong_8]")
    by (vm_compute; reflexivity).
  unfold directive.
  replace (startsWith (str "$[cd_genpass_strong_8]") (str "$[cd_randchar")) with false
    by (vm_compute; reflexivity).
  replace (startsWith (str "$[cd_genpass_strong_8]") (str "$[cd_genaz")) with false
    by (vm_compute; reflexivity).
  replace (startsWith (str "$[cd_genpass_strong_8]") (str "$[cd_genpass")) with true
    by (vm_compute; reflexivity).
  replace (exec re_genpass (str "$[cd_genpass_strong_8]"))
    with (Some [VStr (str "$[cd_genpass_strong_8]"); VStr (str "_strong"); VStr (str "8")])
    by (vm_compute; reflexivity).
  reflexivity.
Qed.

(** With a character between [_strong] and the [8], the scenario of C2
    gives what the claim describes. *)
Lemma scenario_genpass_strong_8_with_separator w cfn mp st :
  random_in_unit_interval w →
  ∃ password st',
    (parseParams w cfn mp
       (Some [ {| ParameterKey := str "DBPassword";
                  ParameterValue := VStr (str "$[cd_genpass_strong_8]") |} ]) st)
    = (Ok [ {| ParameterKey := str "DBPassword"; ParameterValue := VStr password |} ], st')
    ∧ len password = 8
    ∧ Forall (λ c, is_digit c = true ∨ is_upper c = true ∨ is_lower c = true
                   ∨ [c] ∈ symbols) password.
Proof.
  intros Hrandom.
  pose proof (argument_limit_floor w) as Hfloor.
  destruct (genString_within w 8 symbols st Hrandom ltac:(lia))
    as (cs & st1 & Hpw & _ & Hlen & Hall).
  change (genString w 8 symbols) with (genPassword w 8 true) in Hpw.
  exists (fromCharCode cs). eexists. split; [| split].
  - apply parseParams_single_password.
    rewrite callback_genpass_strong_8. unfold bind. rewrite Hpw. reflexivity.
  - unfold len, fromCharCode. rewrite length_map, Hlen. reflexivity.
  - apply fromCharCode_alphabet; [exact symbols_are_characters | exact Hall].
Qed.

Lemma callback_genaz_2 w cfn mp key st :
  callback w cfn mp
    {| ParameterKey := key; ParameterValue := VStr (str "$[cd_genaz_2]") |} st
  = (Ok (AwaitZones {| ParameterKey := key; ParameterValue := VStr (str "$[cd_genaz_2]") |} 2),
     st).
Proof. vm_compute. reflexivity. Qed.

(** With a character between the prefix and the [2], the scenario of C3
    gives what the claim describes, whatever order the sort leaves. *)
Lemma scenario_genaz_2_with_separator w cfn mp st :
  fetchAWSAvailabilityZones w = Done [str "a"; str "b"; str "c"] →
  sort_random w (drawn st) [str "a"; str "b"; str "c"] ≡ₚ [str "a"; str "b"; str "c"] →
  ∃ x y,
    parseParams w cfn mp
      (Some [ {| ParameterKey := str "Zones"; ParameterValue := VStr (str "$[cd_genaz_2]") |} ])
      st
    = (Ok [ {| ParameterKey := str "Zones"; ParameterValue := VStr (x ++ str "," ++ y) |} ],
       shuffled w [str "a"; str "b"; str "c"] st)
    ∧ x ≠ y
    ∧ x ∈ [str "a"; str "b"; str "c"] ∧ y ∈ [str "a"; str "b"; str "c"].
Proof.
  intros Hfetch Hperm.
  assert (Hnodup : NoDup (sort_random w (drawn st) [str "a"; str "b"; str "c"])).
  { rewrite Hperm. apply (bool_decide_unpack _). by vm_compute. }
  pose proof (Permutation_length Hperm) as Hlen.
  destruct (sort_random w (drawn st) [str "a"; str "b"; str "c"])
    as [| x [| y [| z [| ? ?]]]] eqn:Hsort; try discriminate.
  exists x, y. split; [| split; [| split]].
  - rewrite (parseParams_single_zones _ _ _ _ _ _ _ (callback_genaz_2 w cfn mp _ st)).
    unfold genAvailabilityZones, bind, sort_shuffling. rewrite Hfetch. simpl.
    by rewrite Hsort.
  - apply NoDup_cons in Hnodup as [Hx _]. set_solver.
  - rewrite <- Hperm. set_solver.
  - rewrite <- Hperm. set_solver.
Qed.

(** ** [create] under [main] *)

Lemma initAWSCLI_ok accessKeyId secretAccessKey awsRegion st :
  ∃ st', initAWSCLI accessKeyId secretAccessKey awsRegion st = (Ok tt, st')
         ∧ out st' = out st.
Proof. by eexists. Qed.

Lemma genString_ok w L st :
  random_in_unit_interval w →
  L ≤ 65535 →
  ∃ s st', genString w L [] st = (Ok s, st') ∧ out st' = out st.
Proof.
  intros Hrandom HL. pose proof (argument_limit_floor w) as Hfloor.
  destruct (genString_within w L [] st Hrandom ltac:(lia)) as (cs & st' & Hgen & Hdrew & _).
  exists (fromCharCode cs), st'. split; [exact Hgen | apply Hdrew].
Qed.

Lemma bind_ok {A B} (c : M A) (f : A → M B) (st : state) (a : A) (st1 : state) :
  c st = (Ok a, st1) → bind c f st = f a st1.
Proof. intros H. unfold bind. by rewrite H. Qed.

Lemma create_settles w bucket keyPrefix templatePath command st :
  random_in_unit_interval w →
  ∃ st', create w bucket keyPrefix templatePath command st = (Ok tt, st')
         ∨ ∃ e, create w bucket keyPrefix templatePath command st = (Fatal e, st').
Proof.
  intros Hrandom. unfold create.
  destruct (initAWSCLI_ok (c_accessKeyId command) (c_secretAccessKey command)
              (c_awsRegion command) st) as (st1 & H1 & _).
  rewrite (bind_ok _ _ _ _ _ H1).
  destruct (genString_ok w 32 st1 Hrandom ltac:(lia)) as (name & st2 & H2 & _).
  rewrite (bind_ok _ _ _ _ _ H2).
  unfold try_catch.
  destruct (create_guarded w _ _ _ _ _ _ _ st2) as [[[] | e | e] st3].
  - exists st3. by left.
  - eexists. left. reflexivity.
  - exists st3. right. by exists e.
Qed.

(** A failure inside the [try] block of [create] is handed to
    [console.error], and [main] goes on to its closing line; what is not
    caught is an exception inside the callback that reads the template. *)
Lemma create_failure_is_caught w bucket keyPrefix templatePath command st :
  random_in_unit_interval w →
  (∃ st', main w (Create bucket keyPrefix templatePath command) st = (Ok tt, st')
          ∧ last (out st') = Some (console_log (str "program ends.")))
  ∨ (∃ e st', main w (Create bucket keyPrefix templatePath command) st = (Fatal e, st')).
Proof.
  intros Hrandom. unfold main, parseAsync.
  destruct (create_settles w bucket keyPrefix templatePath command st Hrandom)
    as (st1 & [H | [e H]]).
  - left. rewrite (bind_ok _ _ _ _ _ H). eexists. split; [reflexivity |].
    simpl. apply last_snoc.
  - right. exists e, st1. unfold bind. by rewrite H.
Qed.

Example Z_to_str_examples :
  Z_to_str 0 = str "0" ∧ Z_to_str 7 = str "7" ∧ Z_to_str 10 = str "10"
  ∧ Z_to_str 1024 = str "1024" ∧ Z_to_str 1600000000000 = str "1600000000000".
Proof. vm_compute. repeat split. Qed.

(** * Further properties *)

(** ** The matcher, forwards *)

Lemma m_star_loop ic {R : Type} r1 s c (k : jsstring → caps → option R) :
  m ic (Star r1) s c k = star_loop ic r1 k (length s) s c.
Proof. reflexivity. Qed.

Lemma m_Lits_exact {R : Type} l rest s c (k : jsstring → caps → option R) :
  m false (Lits l rest) (l ++ s) c k = m false rest s c k.
Proof.
  induction l as [| a l IH]; [reflexivity |].
  simpl. unfold chr_matches. by rewrite Z.eqb_refl.
Qed.

(** A star over a class takes a whole run when the continuation accepts
    what follows the run. *)
Lemma star_loop_run ic {R : Type} p (k : jsstring → caps → option R) ds rest c fuel :
  forallb p ds = true →
  match rest with [] => True | y :: _ => p y = false end →
  is_Some (k rest c) →
  (length ds ≤ fuel)%nat →
  star_loop ic (Cls p) k fuel (ds ++ rest) c = k rest c.
Proof.
  intros Hds Hstop Hk. revert fuel.
  induction ds as [| d ds IH]; intros fuel Hfuel.
  - destruct fuel as [| fuel]; [reflexivity |]. simpl.
    destruct rest as [| y rest]; [reflexivity |]. by rewrite Hstop.
  - destruct fuel as [| fuel]; [simpl in Hfuel; lia |].
    simpl in Hds. apply andb_true_iff in Hds as [Hd Hds].
    simpl. rewrite Hd.
    destruct (Nat.ltb_spec (length (ds ++ rest)) (S (length (ds ++ rest)))) as [_ | ?];
      [| lia].
    rewrite IH by (done || (simpl in Hfuel; lia)).
    by destruct Hk as [x ->].
Qed.

Lemma take_run {A} (ds rest : list A) :
  take (length (ds ++ rest) - length rest) (ds ++ rest) = ds.
Proof. by rewrite length_app, Nat.add_sub, take_app_length. Qed.

Lemma m_number_tail {R : Type} n x ds c (k : jsstring → caps → option R) :
  not_space x = true →
  forallb is_digit ds = true →
  is_Some (k [] (<[n := Some ds]> c)) →
  m false (number_tail n) (x :: ds ++ [93]) c k = k [] (<[n := Some ds]> c).
Proof.
  intros Hx Hds Hk. unfold number_tail.
  assert (Hgroup :
    m false (Cat (Grp n (Star (Cls is_digit))) (Cat (Star (Cls not_space)) (Chr 93)))
      (ds ++ [93]) c k = k [] (<[n := Some ds]> c)).
  { change (m false (Cat (Grp n (Star (Cls is_digit))) (Cat (Star (Cls not_space)) (Chr 93)))
              (ds ++ [93]) c k)
      with (m false (Star (Cls is_digit)) (ds ++ [93]) c
              (fun s1 c1 =>
                 m false (Cat (Star (Cls not_space)) (Chr 93)) s1
                   (<[n := Some (take (length (ds ++ [93]) - length s1) (ds ++ [93]))]> c1)
                   k)).
    rewrite m_star_loop, star_loop_run; try done.
    - by rewrite take_run.
    - rewrite take_run. exact Hk.
    - rewrite length_app. lia. }
  change (m false (Cat (Opt (Cls not_space))
                     (Cat (Grp n (Star (Cls is_digit)))
                        (Cat (Star (Cls not_space)) (Chr 93))))
            (x :: ds ++ [93]) c k)
    with (match (if not_space x
                 then m false (Cat (Grp n (Star (Cls is_digit)))
                                 (Cat (Star (Cls not_space)) (Chr 93))) (ds ++ [93]) c k
                 else None) with
          | Some r => Some r
          | None => m false (Cat (Grp n (Star (Cls is_digit)))
                              (Cat (Star (Cls not_space)) (Chr 93))) (x :: ds ++ [93]) c k
          end).
  rewrite Hx, Hgroup. by destruct Hk as [r ->].
Qed.

Lemma take_whole {A} (v : list A) : take (length v - length (@nil A)) v = v.
Proof. cbn [length]. rewrite Nat.sub_0_r. apply firstn_all. Qed.

(** The match of a pattern made of a prefix and the number tail, on the
    prefix, one character that is no white space, digits and the closing
    bracket: the group is the digits, whatever the character is. *)
Lemma match_here_number (anch : bool) (pfx : jsstring) (x : Z) (ds : jsstring) :
  not_space x = true →
  forallb is_digit ds = true →
  match_here {| anchored := anch; ignoreCase := false; ngroups := 1;
                body := Lits pfx (number_tail 1) |} (pfx ++ x :: ds ++ [93])
  = Some [VStr (pfx ++ x :: ds ++ [93]); VStr ds].
Proof.
  intros Hx Hds. unfold match_here. cbn [ignoreCase ngroups body].
  rewrite m_Lits_exact, m_number_tail by done.
  simpl. by rewrite Nat.sub_0_r, firstn_all.
Qed.

Lemma exec_randchar_number (x : Z) (ds : jsstring) :
  not_space x = true →
  forallb is_digit ds = true →
  exec re_randchar (str "$[cd_randchar" ++ x :: ds ++ [93])
  = Some [VStr (str "$[cd_randchar" ++ x :: ds ++ [93]); VStr ds].
Proof. intros Hx Hds. exact (match_here_number true _ x ds Hx Hds). Qed.


(** [_strong] does not match where a character and then a digit or the
    bracket stand. *)
Lemma strong_absent {R : Type} x ds c (k : jsstring → caps → option R) :
  forallb is_digit ds = true →
  m false (Grp 1 (Lits (str "_strong") Eps)) (x :: ds ++ [93]) c k = None.
Proof.
  intros Hds. change (str "_strong") with [95; 115; 116; 114; 111; 110; 103].
  cbn [Lits m]. unfold chr_matches.
  destruct (95 =? x); [| reflexivity].
  destruct ds as [| d ds]; cbn [app]; [reflexivity |].
  destruct (Z.eqb_spec 115 d) as [<- | _]; [discriminate Hds | reflexivity].
Qed.

Lemma exec_genpass_number (x : Z) (ds : jsstring) :
  not_space x = true →
  forallb is_digit ds = true →
  exec re_genpass (str "$[cd_genpass" ++ x :: ds ++ [93])
  = Some [VStr (str "$[cd_genpass" ++ x :: ds ++ [93]); VUndefined; VStr ds].
Proof.
  intros Hx Hds. unfold exec, match_here, re_genpass. cbn [anchored ignoreCase ngroups body].
  change (Cat (Opt (Cls not_space))
            (Cat (Grp 2 (Star (Cls is_digit))) (Cat (Star (Cls not_space)) (Chr 93))))
    with (number_tail 2).
  rewrite m_Lits_exact.
  match goal with
  | |- m false (Cat (Opt ?g) ?t) ?s ?c ?k = _ =>
      change (m false (Cat (Opt g) t) s c k)
        with (match m false g s c (fun s1 c1 => m false t s1 c1 k) with
              | Some r => Some r
              | None => m false t s c k
              end)
  end.
  rewrite strong_absent by done.
  rewrite m_number_tail by done.
  by rewrite take_whole.
Qed.

Lemma exec_genpass_strong_number (x : Z) (ds : jsstring) :
  not_space x = true →
  forallb is_digit ds = true →
  exec re_genpass (str "$[cd_genpass_strong" ++ x :: ds ++ [93])
  = Some [VStr (str "$[cd_genpass_strong" ++ x :: ds ++ [93]); VStr (str "_strong"); VStr ds].
Proof.
  intros Hx Hds. unfold exec, match_here, re_genpass. cbn [anchored ignoreCase ngroups body].
  change (Cat (Opt (Cls not_space))
            (Cat (Grp 2 (Star (Cls is_digit))) (Cat (Star (Cls not_space)) (Chr 93))))
    with (number_tail 2).
  change (str "$[cd_genpass_strong" ++ x :: ds ++ [93])
    with (str "$[cd_genpass" ++ (str "_strong" ++ x :: ds ++ [93])).
  rewrite m_Lits_exact.
  match goal with
  | |- m false (Cat (Opt (Grp 1 (Lits ?l Eps))) ?t) (?l ++ ?s) ?c ?k = _ =>
      change (m false (Cat (Opt (Grp 1 (Lits l Eps))) t) (l ++ s) c k)
        with (match m false (Lits l Eps) (l ++ s) c
                      (fun s1 c1 =>
                         m false t s1
                           (<[1%nat := Some (take (length (l ++ s) - length s1) (l ++ s))]> c1)
                           k) with
              | Some r => Some r
              | None => m false t (l ++ s) c k
              end)
  end.
  rewrite m_Lits_exact.
  change (m false Eps ?s ?c ?k) with (k s c). cbv beta.
  rewrite take_run, m_number_tail by done.
  by rewrite take_whole.
Qed.

(** ** The number of a directive *)

Lemma parse_digits_from (ds : jsstring) (acc : Z) :
  forallb is_digit ds = true → 0 ≤ acc →
  0 ≤ fold_left (fun a c => 10 * a + (c - 48)) ds acc.
Proof.
  revert acc. induction ds as [| d ds IH]; intros acc Hds Hacc; [exact Hacc |].
  simpl in Hds. apply andb_true_iff in Hds as [Hd Hds].
  simpl. apply IH; [exact Hds |]. unfold is_digit in Hd. lia.
Qed.

Lemma parse_digits_nonneg (ds : jsstring) :
  forallb is_digit ds = true → 0 ≤ parse_digits ds.
Proof. intros Hds. by apply parse_digits_from. Qed.

Lemma genString_plain_spec w L st :
  random_in_unit_interval w → 0 ≤ L ≤ argument_limit w →
  ∃ s st', genString w L [] st = (Ok s, st') ∧ len s = L
           ∧ Forall alphanumeric s ∧ out st' = out st.
Proof.
  intros Hrandom [HL Hlimit].
  destruct (genString_within w L [] st Hrandom Hlimit)
    as (cs & st' & Hgen & (_ & Hout & _) & Hlen & Hall).
  exists (fromCharCode cs), st'.
  split; [exact Hgen |]. split; [| split; [| exact Hout]].
  - unfold len, fromCharCode. rewrite length_map, Hlen. lia.
  - eapply Forall_impl; [exact (fromCharCode_alphabet [] cs (Forall_nil_2 _) Hall) |].
    intros c [H | [H | [H | H]]]; [by left | by right; left | by right; right |].
    by apply elem_of_nil in H.
Qed.

(** X1: [$[cd_randchar], then one character that is no white space, then
    digits, then the closing bracket: when the number the digits spell is
    one a double holds exactly and not more than the arguments the engine
    accepts in one call, the entry gets a string of that many letters and
    digits.  The character after the prefix is never part of the number,
    also when it is a digit itself. *)
Theorem randchar_number_sets_length
    (w : World) (cfn : option (gmap jsstring jsval)) (mp : gmap jsstring jsstring)
    (key raw : jsstring) (x : Z) (ds : jsstring) (st : state) :
  random_in_unit_interval w →
  trim raw = str "$[cd_randchar" ++ x :: ds ++ [93] →
  not_space x = true →
  forallb is_digit ds = true →
  ds ≠ [] →
  parse_digits ds < 2 ^ 53 →
  parse_digits ds ≤ argument_limit w →
  ∃ s st',
    parseParams w cfn mp (Some [ {| ParameterKey := key; ParameterValue := VStr raw |} ]) st
    = (Ok [ {| ParameterKey := key; ParameterValue := VStr s |} ], st')
    ∧ len s = parse_digits ds ∧ Forall alphanumeric s ∧ out st' = out st.
Proof.
  intros Hrandom Ht Hx Hds Hne _ Hlimit.
  destruct (genString_plain_spec w (parse_digits ds) st Hrandom
              (conj (parse_digits_nonneg ds Hds) Hlimit))
    as (s & st' & Hs & Hlen & Hall & Hout).
  exists s, st'. split; [| done].
  apply parseParams_single_settled.
  rewrite callback_dispatches;
    [| apply bool_decide_eq_false_2; rewrite Ht; intros E; vm_compute in E; discriminate E ..].
  rewrite Ht. unfold directive.
  replace (startsWith (str "$[cd_randchar" ++ x :: ds ++ [93]) (str "$[cd_randchar"))
    with true by (vm_compute; reflexivity).
  rewrite exec_randchar_number by done.
  cbn [default from_option id]. unfold at_. cbn [lookup list_lookup default from_option id].
  destruct ds as [| d ds']; [done |]. cbn [truthy Number_]. rewrite Hds.
  unfold bind. by rewrite Hs.
Qed.

Lemma randchar_number_sets_length_witness :
  ∃ s st',
    parseParams sample_world None ∅
      (Some [ {| ParameterKey := str "K";
                 ParameterValue := VStr (str " $[cd_randchar95] ") |} ]) initial
    = (Ok [ {| ParameterKey := str "K"; ParameterValue := VStr s |} ], st')
    ∧ len s = parse_digits (str "5") ∧ Forall alphanumeric s ∧ out st' = out initial.
Proof.
  apply (randchar_number_sets_length sample_world None ∅ (str "K")
           (str " $[cd_randchar95] ") 57 (str "5") initial).
  - exact sample_random_ok.
  - vm_compute. reflexivity.
  - vm_compute. reflexivity.
  - vm_compute. reflexivity.
  - discriminate.
  - vm_compute. reflexivity.
  - vm_compute. discriminate.
Defined.

Lemma genPassword_spec w L strong st :
  random_in_unit_interval w → 0 ≤ L ≤ argument_limit w →
  ∃ s st', genPassword w L strong st = (Ok s, st') ∧ len s = L
           ∧ Forall (λ c, alphanumeric c ∨ (strong = true ∧ [c] ∈ symbols)) s
           ∧ out st' = out st.
Proof.
  intros Hrandom HL. unfold genPassword.
  destruct strong.
  - destruct (genString_within w L symbols st Hrandom (proj2 HL))
      as (cs & st' & Hgen & (_ & Hout & _) & Hlen & Hall).
    exists (fromCharCode cs), st'.
    split; [exact Hgen |]. split; [| split; [| exact Hout]].
    + unfold len, fromCharCode. rewrite length_map, Hlen. lia.
    + eapply Forall_impl; [exact (fromCharCode_alphabet _ cs symbols_are_characters Hall) |].
      intros c [H | [H | [H | H]]];
        [left; by left | left; by right; left | left; by right; right | by right].
  - destruct (genString_plain_spec w L st Hrandom HL) as (s & st' & Hs & Hlen & Hall & Hout).
    exists s, st'. split; [exact Hs |]. split; [exact Hlen |]. split; [| exact Hout].
    eapply Forall_impl; [exact Hall |]. intros c H. by left.
Qed.

(** X2: [$[cd_genpass] or [$[cd_genpass_strong], then one character that
    is no white space, then digits, then the closing bracket: when the
    number the digits spell is one a double holds exactly and not more
    than the arguments the engine accepts in one call, the entry gets a
    password of that many characters (none for no digits); symbols can
    occur only after [_strong]; the password is written to the console. *)
Theorem genpass_number_sets_length
    (w : World) (cfn : option (gmap jsstring jsval)) (mp : gmap jsstring jsstring)
    (key raw : jsstring) (strong : bool) (x : Z) (ds : jsstring) (st : state) :
  random_in_unit_interval w →
  trim raw = str "$[cd_genpass" ++ (if strong then str "_strong" else []) ++ x :: ds ++ [93] →
  not_space x = true →
  forallb is_digit ds = true →
  parse_digits ds < 2 ^ 53 →
  parse_digits ds ≤ argument_limit w →
  ∃ s st',
    parseParams w cfn mp (Some [ {| ParameterKey := key; ParameterValue := VStr raw |} ]) st
    = (Ok [ {| ParameterKey := key; ParameterValue := VStr s |} ], st')
    ∧ len s = parse_digits ds
    ∧ Forall (λ c, alphanumeric c ∨ (strong = true ∧ [c] ∈ symbols)) s
    ∧ out st' = out st ++ [console_info (str "Generated password: [" ++ s
                                         ++ str "], for parameter: " ++ key)].
Proof.
  intros Hrandom Ht Hx Hds _ Hlimit.
  destruct (genPassword_spec w (parse_digits ds) strong st Hrandom
              (conj (parse_digits_nonneg ds Hds) Hlimit))
    as (s & st1 & Hs & Hlen & Hall & Hout).
  exists s. eexists. split; [| split; [exact Hlen | split; [exact Hall |]]].
  - apply parseParams_single_password.
    rewrite callback_dispatches;
      [| apply bool_decide_eq_false_2; rewrite Ht; destruct strong;
         intros E; vm_compute in E; discriminate E ..].
    rewrite Ht. unfold directive.
    destruct strong.
    + replace (startsWith (str "$[cd_genpass" ++ str "_strong" ++ x :: ds ++ [93])
                 (str "$[cd_randchar")) with false by (vm_compute; reflexivity).
      replace (startsWith (str "$[cd_genpass" ++ str "_strong" ++ x :: ds ++ [93])
                 (str "$[cd_genaz")) with false by (vm_compute; reflexivity).
      replace (startsWith (str "$[cd_genpass" ++ str "_strong" ++ x :: ds ++ [93])
                 (str "$[cd_genpass")) with true by (vm_compute; reflexivity).
      change (str "$[cd_genpass" ++ str "_strong" ++ x :: ds ++ [93])
        with (str "$[cd_genpass_strong" ++ x :: ds ++ [93]).
      rewrite exec_genpass_strong_number by done.
      cbn [default from_option id]. unfold at_.
      cbn [lookup list_lookup default from_option id Number_].
      rewrite Hds. change (truthy (VStr (str "_strong"))) with true.
      unfold bind. rewrite Hs. reflexivity.
    + replace (startsWith (str "$[cd_genpass" ++ [] ++ x :: ds ++ [93])
                 (str "$[cd_randchar")) with false by (vm_compute; reflexivity).
      replace (startsWith (str "$[cd_genpass" ++ [] ++ x :: ds ++ [93])
                 (str "$[cd_genaz")) with false by (vm_compute; reflexivity).
      replace (startsWith (str "$[cd_genpass" ++ [] ++ x :: ds ++ [93])
                 (str "$[cd_genpass")) with true by (vm_compute; reflexivity).
      change (str "$[cd_genpass" ++ [] ++ x :: ds ++ [93])
        with (str "$[cd_genpass" ++ x :: ds ++ [93]).
      rewrite exec_genpass_number by done.
      cbn [default from_option id]. unfold at_.
      cbn [lookup list_lookup default from_option id Number_].
      rewrite Hds. change (truthy VUndefined) with false.
      unfold bind. rewrite Hs. reflexivity.
  - simpl. by rewrite Hout.
Qed.

Lemma genpass_number_sets_length_witness :
  ∃ s st',
    parseParams sample_world None ∅
      (Some [ {| ParameterKey := str "K";
                 ParameterValue := VStr (str "$[cd_genpass_strong_12]") |} ]) initial
    = (Ok [ {| ParameterKey := str "K"; ParameterValue := VStr s |} ], st')
    ∧ len s = parse_digits (str "12")
    ∧ Forall (λ c, alphanumeric c ∨ (true = true ∧ [c] ∈ symbols)) s
    ∧ out st' = out initial ++ [console_info (str "Generated password: [" ++ s
                                              ++ str "], for parameter: " ++ str "K")].
Proof.
  apply (genpass_number_sets_length sample_world None ∅ (str "K")
           (str "$[cd_genpass_strong_12]") true 95 (str "12") initial).
  - exact sample_random_ok.
  - vm_compute. reflexivity.
  - vm_compute. reflexivity.
  - vm_compute. reflexivity.
  - vm_compute. reflexivity.
  - vm_compute. discriminate.
Defined.

(** ** Zones *)






(** X5: [$[cd_randchar], one character that is no white space and the
    closing bracket: no digits are read, also when the character is a
    digit, and the entry keeps its raw value, white space included. *)
Theorem randchar_single_character_is_unchanged
    (w : World) (cfn : option (gmap jsstring jsval)) (mp : gmap jsstring jsstring)
    (key raw : jsstring) (x : Z) (st : state) :
  trim raw = str "$[cd_randchar" ++ [x; 93] →
  not_space x = true →
  parseParams w cfn mp (Some [ {| ParameterKey := key; ParameterValue := VStr raw |} ]) st
  = (Ok [ {| ParameterKey := key; ParameterValue := VStr raw |} ], st).
Proof.
  intros Ht Hx. apply parseParams_single_settled.
  rewrite callback_dispatches;
    [| apply bool_decide_eq_false_2; rewrite Ht; intros E; vm_compute in E; discriminate E ..].
  rewrite Ht. unfold directive.
  replace (startsWith (str "$[cd_randchar" ++ [x; 93]) (str "$[cd_randchar"))
    with true by (vm_compute; reflexivity).
  change (str "$[cd_randchar" ++ [x; 93]) with (str "$[cd_randchar" ++ x :: [] ++ [93]).
  by rewrite exec_randchar_number.
Qed.

Lemma randchar_single_character_is_unchanged_witness :
  parseParams sample_world None ∅
    (Some [ {| ParameterKey := str "K"; ParameterValue := VStr (str " $[cd_randchar8]") |} ])
    initial
  = (Ok [ {| ParameterKey := str "K"; ParameterValue := VStr (str " $[cd_randchar8]") |} ],
     initial).
Proof.
  apply (randchar_single_character_is_unchanged sample_world None ∅ (str "K")
           (str " $[cd_randchar8]") 56 initial).
  - vm_compute. reflexivity.
  - vm_compute. reflexivity.
Defined.

(** ** Literals *)

Lemma callback_literal w cfn mp key raw st :
  literal (trim raw) = true →
  callback w cfn mp {| ParameterKey := key; ParameterValue := VStr raw |} st
  = (Ok (Settled (Ok {| ParameterKey := key; ParameterValue := VStr raw |})), st).
Proof.
  unfold literal. intros H.
  repeat (apply andb_true_iff in H as [H ?]).
  rewrite callback_dispatches by by apply negb_true_iff.
  unfold directive.
  repeat match goal with
         | Hn : negb ?b = true |- _ => apply negb_true_iff in Hn; rewrite ?Hn
         end.
  reflexivity.
Qed.

Lemma mapM_pure {A B} (f : A → M B) (g : A → B) (l : list A) (st : state) :
  Forall (λ x, f x st = (Ok (g x), st)) l →
  mapM f l st = (Ok (map g l), st).
Proof.
  induction 1 as [| x l Hx _ IH]; [reflexivity |].
  simpl. unfold bind. by rewrite Hx, IH.
Qed.

Lemma first_rejection_fulfilled_Ok (l : list entry) :
  first_rejection (map Ok l) = None ∧ fulfilled (map Ok l) = l.
Proof.
  induction l as [| e l [IH1 IH2]]; [done |].
  split; [exact IH1 |]. unfold fulfilled in *. cbn. f_equal. exact IH2.
Qed.

(** The callbacks of a document of literals are all settled at once,
    each with its own entry. *)
Lemma literals_start_settled
    (w : World) (cfn : option (gmap jsstring jsval)) (mp : gmap jsstring jsstring)
    (params : list entry) (st : state) :
  Forall (λ param, ∃ raw, ParameterValue param = VStr raw ∧ literal (trim raw) = true) params →
  mapM (async_callback w cfn mp) params st = (Ok (map (λ p, Settled (Ok p)) params), st).
Proof.
  intros Hlit. apply mapM_pure. eapply Forall_impl; [exact Hlit |].
  intros [key value] (raw & Hraw & Hl). simpl in Hraw. subst value.
  unfold async_callback. by rewrite callback_literal.
Qed.

(** Resuming promises that are settled already changes nothing. *)
Lemma settled_resume_all (w : World) (params : list entry) (st : state) :
  mapM (resume w) (map (λ p, Settled (Ok p)) params) st = (Ok (map Ok params), st).
Proof.
  induction params as [| p params IH]; [reflexivity |].
  simpl. unfold bind at 1. simpl. unfold bind. by rewrite IH.
Qed.

(** X6: a document in which every value is a string that, trimmed, is
    none of the two exact directives and starts with none of the three
    prefixes comes back as it is, entry by entry and unit by unit, and
    nothing is written, drawn or changed. *)
Theorem literals_pass_through
    (w : World) (cfn : option (gmap jsstring jsval)) (mp : gmap jsstring jsstring)
    (params : list entry) (st : state) :
  Forall (λ param, ∃ raw, ParameterValue param = VStr raw ∧ literal (trim raw) = true) params →
  parseParams w cfn mp (Some params) st = (Ok params, st).
Proof.
  intros Hlit. unfold parseParams.
  rewrite (bind_ok _ _ _ _ _ (literals_start_settled w cfn mp params st Hlit)).
  rewrite (bind_ok _ _ _ _ _ (settled_resume_all w params st)).
  unfold Promise_all. rewrite map_map.
  change (map (λ x, rejected_early (Settled (Ok x))) params) with (map (@Ok entry) params).
  destruct (first_rejection_fulfilled_Ok params) as [-> ->]. reflexivity.
Qed.

Lemma literals_pass_through_witness :
  parseParams sample_world None ∅
    (Some [ {| ParameterKey := str "A"; ParameterValue := VStr (str " t2.micro ") |};
            {| ParameterKey := str "B"; ParameterValue := VStr [] |};
            {| ParameterKey := str "C"; ParameterValue := VStr (str "$[cd_unknown]") |} ])
    initial
  = (Ok [ {| ParameterKey := str "A"; ParameterValue := VStr (str " t2.micro ") |};
          {| ParameterKey := str "B"; ParameterValue := VStr [] |};
          {| ParameterKey := str "C"; ParameterValue := VStr (str "$[cd_unknown]") |} ],
     initial).
Proof.
  apply (literals_pass_through sample_world None ∅).
  repeat constructor; eexists; (split; [reflexivity | vm_compute; reflexivity]).
Defined.

(** ** A failing zone lister *)

Lemma startsWith_inv (s p : jsstring) :
  startsWith s p = true → ∃ rest, s = p ++ rest.
Proof.
  revert s. induction p as [| a p IH]; intros s H; [by exists s |].
  destruct s as [| c s]; [discriminate |]. simpl in H.
  apply andb_true_iff in H as [Hc H]. apply Z.eqb_eq in Hc as ->.
  destruct (IH s H) as [rest ->]. by exists rest.
Qed.

Lemma callback_genaz w cfn mp key raw st :
  startsWith (trim raw) (str "$[cd_genaz") = true →
  ∃ num, callback w cfn mp {| ParameterKey := key; ParameterValue := VStr raw |} st
         = (Ok (AwaitZones {| ParameterKey := key; ParameterValue := VStr raw |} num), st).
Proof.
  intros Hpre. destruct (startsWith_inv _ _ Hpre) as [rest Ht].
  rewrite callback_dispatches;
    [| apply bool_decide_eq_false_2; rewrite Ht; intros E; vm_compute in E; discriminate E ..].
  unfold directive. rewrite Hpre.
  replace (startsWith (trim raw) (str "$[cd_randchar")) with false
    by (rewrite Ht; vm_compute; reflexivity).
  by eexists.
Qed.

Section ListerFails.
Variable w : World.
Variable cfn : option (gmap jsstring jsval).
Variable mp : gmap jsstring jsstring.
Variable reason : exn.
Hypothesis Hfetch : fetchAWSAvailabilityZones w = Failed reason.

Lemma async_callback_genaz param st :
  ∃ p st', async_callback w cfn mp param st = (Ok p, st') ∧
    started_for cfn mp param p ∧
    (asks_zones param → ∃ num, p = AwaitZones param num).
Proof.
  destruct (async_callback_spec cfn mp w param st) as (p & st' & Hp & Hstarted & _).
  exists p, st'. split; [exact Hp |]. split; [exact Hstarted |].
  intros (raw & Hraw & Hpre). destruct param as [key value]. simpl in Hraw. subst value.
  destruct (callback_genaz w cfn mp key raw st Hpre) as [num Hcb].
  unfold async_callback in Hp. rewrite Hcb in Hp. simpl in Hp.
  injection Hp as <- _. by exists num.
Qed.

Lemma resume_when_lister_fails p st :
  ∃ o st', resume w p st = (Ok o, st') ∧
    match p with
    | Settled o' => o = o'
    | AwaitPassword _ _ => ∃ e, o = Ok e
    | AwaitZones _ _ => o = Throw reason
    end.
Proof.
  destruct p as [o | param password | param num]; simpl.
  - by eexists _, _.
  - eexists _, _. split; [reflexivity |]. by eexists.
  - unfold genAvailabilityZones, bind. rewrite Hfetch. simpl. by eexists _, _.
Qed.

Lemma early_rejections_are_engine_errors (params : list entry) (started : list promise) :
  Forall2 (λ param p, started_for cfn mp param p ∧
             (asks_zones param → ∃ num, p = AwaitZones param num)) params started →
  first_rejection (map rejected_early started) = None
  ∨ ∃ e, first_rejection (map rejected_early started) = Some e ∧ engine_error e.
Proof.
  induction 1 as [| param p params started [Hp _] _ IH]; [by left |].
  destruct p as [[e | e | e] | param' pw | param' num]; simpl in *; try exact IH; [| done].
  right. by exists e.
Qed.

Lemma lister_failure_surfaces (params : list entry) (started : list promise)
    (settled : list (outcome entry)) :
  Forall2 (λ param p, started_for cfn mp param p ∧
             (asks_zones param → ∃ num, p = AwaitZones param num)) params started →
  Forall2 (λ p o, match p with
                  | Settled o' => o = o'
                  | AwaitPassword _ _ => ∃ e, o = Ok e
                  | AwaitZones _ _ => o = Throw reason
                  end) started settled →
  (∃ param, param ∈ params ∧ asks_zones param) →
  (∃ e, first_rejection (map rejected_early started) = Some e ∧ engine_error e)
  ∨ (first_rejection (map rejected_early started) = None
     ∧ first_rejection settled = Some reason).
Proof.
  intros Hstarted. revert settled.
  induction Hstarted as [| param p params started [Hp Hz] Hrest IH];
    intros settled Hsettled (asking & Hin & Hasks).
  - by apply elem_of_nil in Hin.
  - inversion Hsettled as [| p' o started' settled' Ho Hsettled']; subst.
    assert (Htail : asks_zones param ∨ ∃ param', param' ∈ params ∧ asks_zones param').
    { apply elem_of_cons in Hin as [<- | Hin]; [by left | right; by exists asking]. }
    destruct p as [[e | e | e] | param' pw | param' num]; simpl in *.
    + subst o. destruct Htail as [Hhead | Htail]; [by destruct (Hz Hhead) |].
      exact (IH settled' Hsettled' Htail).
    + left. by exists e.
    + done.
    + destruct Ho as [e ->]. destruct Htail as [Hhead | Htail]; [by destruct (Hz Hhead) |].
      exact (IH settled' Hsettled' Htail).
    + subst o. simpl.
      destruct (early_rejections_are_engine_errors params started Hrest) as [Hnone | Hsome];
        [right; by split | by left].
Qed.
End ListerFails.

(** X7: when the zone lister fails, a document with an entry of
    [$[cd_genaz] is rejected as a whole: no entry is returned, and the
    rejection is the lister's own reason, unless the synchronous part of
    a callback has rejected the batch before: with a TypeError (a value
    that is not a string, a template without [Parameters], a default
    that cannot be printed) or with the RangeError of a call with too
    many arguments. *)
Theorem failing_zone_lister_rejects_batch
    (w : World) (cfn : option (gmap jsstring jsval)) (mp : gmap jsstring jsstring)
    (params : list entry) (reason : exn) (st : state) :
  fetchAWSAvailabilityZones w = Failed reason →
  (∃ param, param ∈ params ∧ asks_zones param) →
  ∃ st', parseParams w cfn mp (Some params) st = (Throw reason, st')
         ∨ parseParams w cfn mp (Some params) st = (Throw TypeError, st')
         ∨ parseParams w cfn mp (Some params) st = (Throw RangeError, st').
Proof.
  intros Hfetch Hasks.
  destruct (mapM_total (async_callback w cfn mp) _ params st
              (async_callback_genaz w cfn mp)) as (started & st1 & Hs & Hstarted).
  destruct (mapM_total (resume w) _ started st1 (resume_when_lister_fails w reason Hfetch))
    as (settled & st2 & Hr & Hsettled).
  exists st2. unfold parseParams, bind. rewrite Hs, Hr. unfold Promise_all.
  destruct (lister_failure_surfaces cfn mp reason params started settled
              Hstarted Hsettled Hasks) as [(e & -> & [-> | ->]) | [-> ->]];
    [right; by left | right; by right | by left].
Qed.

Lemma failing_zone_lister_rejects_batch_witness :
  ∃ st', parseParams failing_world None ∅
           (Some [ {| ParameterKey := str "A"; ParameterValue := VStr (str "plain") |};
                   {| ParameterKey := str "Z"; ParameterValue := VStr (str "$[cd_genaz_2]") |} ])
           initial = (Throw (Reason (str "aws: not found")), st')
         ∨ parseParams failing_world None ∅
             (Some [ {| ParameterKey := str "A"; ParameterValue := VStr (str "plain") |};
                     {| ParameterKey := str "Z"; ParameterValue := VStr (str "$[cd_genaz_2]") |} ])
             initial = (Throw TypeError, st')
         ∨ parseParams failing_world None ∅
             (Some [ {| ParameterKey := str "A"; ParameterValue := VStr (str "plain") |};
                     {| ParameterKey := str "Z"; ParameterValue := VStr (str "$[cd_genaz_2]") |} ])
             initial = (Throw RangeError, st').
Proof.
  apply (failing_zone_lister_rejects_batch failing_world None ∅).
  - reflexivity.
  - exists {| ParameterKey := str "Z"; ParameterValue := VStr (str "$[cd_genaz_2]") |}.
    split.
    + apply elem_of_cons. right. apply elem_of_cons. by left.
    + eexists. split; [reflexivity | vm_compute; reflexivity].
Defined.

(** ** Defaults and overrides that exist *)

(** X8: an entry of [$[cd_default]] whose key has a descriptor with a
    [Default] in the schema gets [String(Default)], for a [Default]
    whose numbers are integers a double holds exactly: a number is
    printed, [null] becomes the string [null], an array prints its
    elements; nothing is written.  A [Default] that [String] cannot
    convert (an object with a member named [toString], by itself or
    inside an array) rejects the batch with the TypeError of the
    conversion. *)
Theorem default_directive_reads_schema
    (w : World) (ps : gmap jsstring jsval) (mp : gmap jsstring jsstring)
    (key raw : jsstring) (descriptor value : jsval) (st : state) :
  trim raw = str "$[cd_default]" →
  ps !! key = Some descriptor →
  truthy descriptor = true →
  own_prop descriptor (str "Default") = value →
  value ≠ VUndefined →
  exact_numbers value = true →
  parseParams w (Some ps) mp
    (Some [ {| ParameterKey := key; ParameterValue := VStr raw |} ]) st
  = match ToString value with
    | Some printed => (Ok [ {| ParameterKey := key; ParameterValue := VStr printed |} ], st)
    | None => (Throw TypeError, st)
    end.
Proof.
  intros Ht Hps Htruthy Hown Hdef _.
  assert (Hcb : callback w (Some ps) mp {| ParameterKey := key; ParameterValue := VStr raw |} st
                = match ToString value with
                  | Some printed =>
                      (Ok (Settled (Ok {| ParameterKey := key;
                                          ParameterValue := VStr printed |})), st)
                  | None => (Throw TypeError, st)
                  end).
  { unfold callback, bind. rewrite use_default_string. unfold str_eqb.
    rewrite bool_decide_eq_true_2 by exact Ht.
    unfold getTemplateDefault. cbn [ParameterKey ParameterValue].
    rewrite Hps. cbn [default from_option id]. rewrite Htruthy, Hown.
    destruct value; try done; by destruct (ToString _). }
  destruct (ToString value) as [printed |].
  - by apply parseParams_single_settled.
  - by apply parseParams_single_thrown.
Qed.

Lemma default_directive_reads_schema_witness :
  parseParams sample_world
    (Some {[ str "Ports" := VObj [(str "Type", VStr (str "CommaDelimitedList"));
                                  (str "Default", VArr [VNum 8080; VNull; VNum 443])] ]}) ∅
    (Some [ {| ParameterKey := str "Ports"; ParameterValue := VStr (str " $[cd_default] ") |} ])
    initial
  = (Ok [ {| ParameterKey := str "Ports"; ParameterValue := VStr (str "8080,,443") |} ],
     initial).
Proof.
  refine (eq_trans
            (default_directive_reads_schema sample_world _ ∅ (str "Ports")
               (str " $[cd_default] ")
               (VObj [(str "Type", VStr (str "CommaDelimitedList"));
                      (str "Default", VArr [VNum 8080; VNull; VNum 443])])
               (VArr [VNum 8080; VNull; VNum 443]) initial _ _ _ _ _ _) _).
  - vm_compute. reflexivity.
  - vm_compute. reflexivity.
  - reflexivity.
  - vm_compute. reflexivity.
  - discriminate.
  - vm_compute. reflexivity.
  - vm_compute. reflexivity.
Defined.

Lemma overridden_resolves w cfn mp key raw value st :
  trim raw = str "$[cd_overridden]" →
  mp !! key = Some value →
  parseParams w cfn mp (Some [ {| ParameterKey := key; ParameterValue := VStr raw |} ]) st
  = (Ok [ {| ParameterKey := key; ParameterValue := VStr value |} ],
     {| drawn := drawn st; env := env st;
        out := out st ++ [console_info (str "Overridden value: [" ++ value
                                        ++ str "], for parameter: " ++ key)];
        files := files st |}).
Proof.
  intros Ht Hmp. apply parseParams_single_settled.
  unfold callback, bind. rewrite use_default_string. unfold str_eqb.
  rewrite bool_decide_eq_false_2 by (rewrite Ht; vm_compute; discriminate).
  rewrite is_overridden_string. unfold str_eqb.
  rewrite bool_decide_eq_true_2 by exact Ht.
  unfold genOverriddenParam. cbn [ParameterKey ParameterValue]. rewrite Hmp.
  by destruct value.
Qed.

Lemma genOverriddenParamMap_empty : genOverriddenParamMap [] = ∅.
Proof. vm_compute. reflexivity. Qed.

Lemma overrideTable_other_key spec bucket keyPrefix key :
  key ∉ synthetic_keys →
  overrideTable (Some spec) bucket keyPrefix !! key = genOverriddenParamMap spec !! key.
Proof.
  intros Hkey. unfold overrideTable.
  rewrite !lookup_insert_ne by (intros <-; apply Hkey; unfold synthetic_keys; set_solver).
  destruct spec as [| c spec]; [by rewrite genOverriddenParamMap_empty | reflexivity].
Qed.

(** X9: under the table [create] builds, an entry of [$[cd_overridden]]
    whose key is none of the four synthetic ones gets the value the
    override specification gives that key, and the value is written to
    the console. *)
Theorem user_override_reaches_entry
    (w : World) (cfn : option (gmap jsstring jsval))
    (spec bucket keyPrefix key raw value : jsstring) (st : state) :
  trim raw = str "$[cd_overridden]" →
  key ∉ synthetic_keys →
  genOverriddenParamMap spec !! key = Some value →
  parseParams w cfn (overrideTable (Some spec) bucket keyPrefix)
    (Some [ {| ParameterKey := key; ParameterValue := VStr raw |} ]) st
  = (Ok [ {| ParameterKey := key; ParameterValue := VStr value |} ],
     {| drawn := drawn st; env := env st;
        out := out st ++ [console_info (str "Overridden value: [" ++ value
                                        ++ str "], for parameter: " ++ key)];
        files := files st |}).
Proof.
  intros Ht Hkey Hspec. apply overridden_resolves; [exact Ht |].
  by rewrite overrideTable_other_key.
Qed.

Lemma user_override_reaches_entry_witness :
  parseParams sample_world None
    (overrideTable (Some (str "Name=KeyName,Value=ops")) (str "bucket") (str "prefix"))
    (Some [ {| ParameterKey := str "KeyName"; ParameterValue := VStr (str "$[cd_overridden]") |} ])
    initial
  = (Ok [ {| ParameterKey := str "KeyName"; ParameterValue := VStr (str "ops") |} ],
     {| drawn := drawn initial; env := env initial;
        out := out initial ++ [console_info (str "Overridden value: [" ++ str "ops"
                                             ++ str "], for parameter: " ++ str "KeyName")];
        files := files initial |}).
Proof.
  apply (user_override_reaches_entry sample_world None (str "Name=KeyName,Value=ops")
           (str "bucket") (str "prefix") (str "KeyName") (str "$[cd_overridden]") (str "ops")
           initial).
  - vm_compute. reflexivity.
  - vm_compute. intros H. repeat (apply elem_of_cons in H as [H | H]; [discriminate H |]).
    by apply elem_of_nil in H.
  - vm_compute. reflexivity.
Defined.

(** ** What the override table can hold *)

Lemma matched_Lits_any ic l rest s c s' c' :
  matched ic (Lits l rest) s c s' c' →
  ∃ s1, matched ic rest s1 c s' c'.
Proof.
  revert s. induction l as [| a l IH]; intros s; simpl.
  - intros H. by exists s.
  - intros H. apply matched_Cat_inv in H as (s1 & c1 & Ha & H).
    apply matched_Chr_inv in Ha as (x & -> & -> & _). by apply IH in H.
Qed.

Lemma matched_Plus_group ic n p s c s' c'' :
  matched ic (Grp n (Plus (Cls p))) s c s' c'' →
  ∃ t, t ≠ [] ∧ forallb p t = true ∧ c'' = <[n := Some t]> c.
Proof.
  intros H. apply matched_Grp_inv in H as (c' & H & ->). unfold Plus in H.
  apply matched_Cat_inv in H as (s1 & c1 & Hx & H).
  apply matched_Cls_inv in Hx as (x & -> & -> & Hx).
  apply matched_Star_Cls in H as (-> & pre & -> & Hpre).
  exists (x :: pre). split; [done |]. split; [by simpl; rewrite Hx |].
  f_equal. f_equal. change (x :: pre ++ s') with ((x :: pre) ++ s'). apply take_run.
Qed.

Lemma search_inv p s ms :
  search p s = Some ms → ∃ s', match_here p s' = Some ms.
Proof.
  induction s as [| c s IH]; simpl.
  - destruct (match_here p []) eqn:E; [| discriminate]. intros [= <-]. by exists [].
  - destruct (match_here p (c :: s)) eqn:E.
    + intros [= <-]. by exists (c :: s).
    + exact IH.
Qed.

Lemma exec_override_groups (token : jsstring) (ms : list jsval) :
  exec re_override token = Some ms →
  ∃ name value, at_ ms 1 = VStr name ∧ at_ ms 2 = VStr value
    ∧ name ≠ [] ∧ value ≠ []
    ∧ forallb not_space name = true ∧ forallb not_space value = true.
Proof.
  unfold exec. cbn [anchored re_override]. intros H.
  apply search_inv in H as [s H].
  unfold match_here in H. cbn [ignoreCase ngroups body] in H.
  apply m_sound in H as (s' & c' & Hm & Hk).
  apply matched_Lits_any in Hm as (s1 & Hm).
  apply matched_Cat_inv in Hm as (s2 & c2 & Hname & Hm).
  apply matched_Plus_group in Hname as (name & Hn0 & Hn & ->).
  apply matched_Lits_any in Hm as (s3 & Hm).
  apply matched_Plus_group in Hm as (value & Hv0 & Hv & ->).
  injection Hk as <-. by exists name, value.
Qed.

Lemma new_Map_lookup_from (a : list (jsval * jsval)) (acc : gmap jsstring jsstring) key value :
  foldl (fun mp nv => match nv with
                      | (VStr name, VStr v) => <[name := v]> mp
                      | _ => mp
                      end) acc a !! key = Some value →
  acc !! key = Some value ∨ (VStr key, VStr value) ∈ a.
Proof.
  revert acc. induction a as [| nv a IH]; intros acc H; [by left |].
  simpl in H. apply IH in H as [H | H]; [| right; by right].
  destruct nv as [[| | | | name | |] [| | | | v | |]]; try (by left).
  destruct (decide (name = key)) as [-> | Hne].
  - rewrite lookup_insert_eq in H. injection H as ->. right. by left.
  - rewrite lookup_insert_ne in H by done. by left.
Qed.

(** X10: whatever the override specification is, every key and every
    value of the table built from it is a non-empty string without white
    space: a token that does not have both is left out. *)
Theorem override_table_entries_are_tokens (spec key value : jsstring) :
  genOverriddenParamMap spec !! key = Some value →
  key ≠ [] ∧ value ≠ []
  ∧ forallb not_space key = true ∧ forallb not_space value = true.
Proof.
  unfold genOverriddenParamMap, new_Map. intros H.
  apply new_Map_lookup_from in H as [H | H]; [by rewrite lookup_empty in H |].
  apply list_elem_of_filter in H as [_ H].
  apply list_elem_of_In, in_map_iff in H as (token & Hpair & _).
  destruct (exec re_override token) as [ms |] eqn:E; [| discriminate Hpair].
  cbn [default from_option id] in Hpair.
  apply exec_override_groups in E as (name & v & H1 & H2 & Hn0 & Hv0 & Hn & Hv).
  rewrite H1, H2 in Hpair. by injection Hpair as <- <-.
Qed.

Lemma override_table_entries_are_tokens_witness :
  str "KeyName" ≠ [] ∧ str "ops" ≠ []
  ∧ forallb not_space (str "KeyName") = true ∧ forallb not_space (str "ops") = true.
Proof.
  apply (override_table_entries_are_tokens (str "x Name=KeyName,Value=ops Name=,Value=1")).
  vm_compute. reflexivity.
Defined.

(** ** The matcher, backtracking *)

Lemma m_Lits_ignoring_case {R : Type} l rest s c (k : jsstring → caps → option R) :
  m true (Lits l rest) (l ++ s) c k = m true rest s c k.
Proof.
  induction l as [| a l IH]; [reflexivity |].
  simpl. unfold chr_matches. by rewrite Z.eqb_refl.
Qed.

Lemma star_loop_none ic {R : Type} p (k : jsstring → caps → option R) s c fuel :
  (∀ t, t `suffix_of` s → k t c = None) →
  star_loop ic (Cls p) k fuel s c = None.
Proof.
  revert s. induction fuel as [| fuel IH]; intros s Hk.
  - simpl. by apply Hk.
  - simpl. destruct s as [| y s]; [by apply Hk |].
    destruct (p y); [| by apply Hk].
    destruct (length s <? length (y :: s))%nat; [| by apply Hk].
    rewrite IH; [by apply Hk |].
    intros t Ht. apply Hk. by apply suffix_cons_r.
Qed.

(** A star over a class gives back, one by one, the characters that the
    continuation refuses, until the continuation accepts. *)
Lemma star_loop_backtrack ic {R : Type} p (k : jsstring → caps → option R) ds tail c fuel :
  forallb p ds = true →
  (∀ y tail' t, tail = y :: tail' → t `suffix_of` tail' → k t c = None) →
  is_Some (k tail c) →
  (length ds ≤ fuel)%nat →
  star_loop ic (Cls p) k fuel (ds ++ tail) c = k tail c.
Proof.
  intros Hds Hnone Hk. revert fuel.
  induction ds as [| d ds IH]; intros fuel Hfuel.
  - destruct fuel as [| fuel]; [reflexivity |]. simpl.
    destruct tail as [| y tail']; [reflexivity |].
    destruct (p y); [| reflexivity].
    destruct (length tail' <? length (y :: tail'))%nat; [| reflexivity].
    rewrite star_loop_none; [reflexivity |].
    intros t Ht. by eapply Hnone.
  - destruct fuel as [| fuel]; [simpl in Hfuel; lia |].
    simpl in Hds. apply andb_true_iff in Hds as [Hd Hds].
    simpl. rewrite Hd.
    destruct (Nat.ltb_spec (length (ds ++ tail)) (S (length (ds ++ tail)))) as [_ | ?];
      [| lia].
    rewrite IH by (done || (simpl in Hfuel; lia)).
    by destruct Hk as [x ->].
Qed.

(** The group of at least one character of a class, forwards: it takes
    [t] when the continuation accepts at the end of [t] and at no
    place after it. *)
Lemma m_group_plus ic {R : Type} n p (k : jsstring → caps → option R) t tail c :
  t ≠ [] →
  forallb p t = true →
  (∀ y tail' u c', tail = y :: tail' → u `suffix_of` tail' → k u c' = None) →
  is_Some (k tail (<[n := Some t]> c)) →
  m ic (Grp n (Plus (Cls p))) (t ++ tail) c k = k tail (<[n := Some t]> c).
Proof.
  intros Ht Hp Hnone Hk. destruct t as [| x t]; [done |].
  simpl in Hp. apply andb_true_iff in Hp as [Hx Hp].
  change (m ic (Grp n (Plus (Cls p))) ((x :: t) ++ tail) c k)
    with (if p x
          then m ic (Star (Cls p)) (t ++ tail) c
                 (fun s1 c1 =>
                    k s1 (<[n := Some (take (length ((x :: t) ++ tail) - length s1)
                                         ((x :: t) ++ tail))]> c1))
          else None).
  rewrite Hx, m_star_loop, star_loop_backtrack; try done.
  - by rewrite take_run.
  - intros y tail' u Htail Hu. by eapply Hnone.
  - by rewrite take_run.
  - rewrite length_app. lia.
Qed.

(** ** The override table, there and back *)

Lemma search_here p s r : match_here p s = Some r → search p s = Some r.
Proof. intros H. destruct s; simpl; by rewrite H. Qed.

Lemma comma_refused {R : Type} rest u c (k : jsstring → caps → option R) :
  match u with [] => True | y :: _ => y ≠ 44 end →
  m true (Lits (str ",Value=") rest) u c k = None.
Proof.
  intros Hu. change (str ",Value=") with [44; 86; 97; 108; 117; 101; 61].
  cbn [Lits m]. destruct u as [| y u]; [reflexivity |].
  unfold chr_matches, canonicalize. change (is_lower 44) with false. cbv iota.
  destruct (is_lower y) eqn:Hy.
  - unfold is_lower in Hy. destruct (Z.eqb_spec 44 (y - 32)); [lia | reflexivity].
  - destruct (Z.eqb_spec 44 y); [by subst | reflexivity].
Qed.

Lemma head_of_suffix (u s : jsstring) :
  Forall (λ y, y ≠ 44) s → u `suffix_of` s →
  match u with [] => True | y :: _ => y ≠ 44 end.
Proof.
  intros Hs [pre ->]. apply Forall_app in Hs as [_ Hu].
  destruct u as [| y u]; [done |]. by apply Forall_cons in Hu as [Hy _].
Qed.

(** [exec] of the override pattern on one well-formed token. *)
Lemma exec_override_token (name value : jsstring) :
  token_pair (name, value) →
  exec re_override (override_token name value)
  = Some [VStr (override_token name value); VStr name; VStr value].
Proof.
  intros (Hn0 & Hv0 & Hn & Hv & Hcomma). simpl in *.
  unfold exec. cbn [anchored re_override]. apply search_here.
  unfold match_here. cbn [ignoreCase ngroups body re_override].
  set (k0 := fun (s' : jsstring) (c : caps) =>
               Some (map (fun g => match g with Some t => VStr t | None => VUndefined end)
                       (<[0%nat := Some (take (length (override_token name value) - length s')
                                           (override_token name value))]> c))).
  assert (Hvalue : ∀ c1, m true (Grp 2 (Plus (Cls not_space))) value c1 k0
                         = k0 [] (<[2%nat := Some value]> c1)).
  { intros c1. rewrite <- (app_nil_r value) at 1.
    apply m_group_plus; try done. }
  unfold override_token at 1. rewrite m_Lits_ignoring_case.
  change (m true (Cat (Grp 1 (Plus (Cls not_space)))
                    (Lits (str ",Value=") (Grp 2 (Plus (Cls not_space)))))
            (name ++ str ",Value=" ++ value) (replicate 3 None) k0)
    with (m true (Grp 1 (Plus (Cls not_space))) (name ++ str ",Value=" ++ value)
            (replicate 3 None)
            (fun s1 c1 => m true (Lits (str ",Value=") (Grp 2 (Plus (Cls not_space))))
                            s1 c1 k0)).
  rewrite m_group_plus; try done.
  - rewrite m_Lits_ignoring_case, Hvalue. unfold k0. by rewrite take_whole.
  - intros y tail' u c' Htail Hu. apply comma_refused.
    apply (head_of_suffix u tail'); [| exact Hu].
    change (str ",Value=" ++ value) with (44 :: str "Value=" ++ value) in Htail.
    injection Htail as _ <-.
    repeat (apply Forall_cons; split; [vm_compute; discriminate |]). exact Hcomma.
  - rewrite m_Lits_ignoring_case, Hvalue. by eexists.
Qed.

Lemma split_nonempty (sep : Z) (s : jsstring) : split sep s ≠ [].
Proof.
  destruct s as [| c s]; simpl; [done |].
  destruct (c =? sep); [done |]. by destruct (split sep s).
Qed.

Lemma split_app_no_sep (sep : Z) (t rest : jsstring) :
  Forall (λ y, y ≠ sep) t →
  split sep (t ++ rest)
  = match split sep rest with
    | tok :: toks => (t ++ tok) :: toks
    | [] => [t]
    end.
Proof.
  pose proof (split_nonempty sep rest) as Hne.
  induction 1 as [| y t Hy _ IH]; simpl.
  - by destruct (split sep rest).
  - destruct (Z.eqb_spec y sep); [done |]. rewrite IH.
    by destruct (split sep rest).
Qed.

Lemma split_join (toks : list jsstring) :
  toks ≠ [] →
  Forall (λ t, Forall (λ y, y ≠ 32) t) toks →
  split 32 (join [32] toks) = toks.
Proof.
  intros Hne Hall. induction Hall as [| t toks Ht Hall IH]; [done |].
  destruct toks as [| t2 toks].
  - simpl. rewrite <- (app_nil_r t) at 1. rewrite split_app_no_sep by done.
    simpl. by rewrite app_nil_r.
  - change (join [32] (t :: t2 :: toks)) with (t ++ 32 :: join [32] (t2 :: toks)).
    rewrite split_app_no_sep by done.
    change (split 32 (32 :: join [32] (t2 :: toks)))
      with ([] :: split 32 (join [32] (t2 :: toks))).
    rewrite IH by done. by rewrite app_nil_r.
Qed.

Lemma not_space_no_blank (t : jsstring) :
  forallb not_space t = true → Forall (λ y, y ≠ 32) t.
Proof.
  intros H. apply Forall_forall. intros y Hy ->.
  rewrite forallb_forall in H. apply list_elem_of_In, H in Hy. discriminate Hy.
Qed.

Lemma override_token_no_blank nv :
  token_pair nv → Forall (λ y, y ≠ 32) (override_token nv.1 nv.2).
Proof.
  intros (_ & _ & Hn & Hv & _). unfold override_token.
  repeat (apply Forall_app; split);
    try (by apply not_space_no_blank);
    vm_compute; repeat constructor; discriminate.
Qed.

Lemma foldl_insert_reverse (pairs : list (jsstring * jsstring))
    (acc : gmap jsstring jsstring) :
  foldl (λ mp nv, <[nv.1 := nv.2]> mp) acc pairs
  = foldr (λ nv mp, <[nv.1 := nv.2]> mp) acc (reverse pairs).
Proof.
  revert acc. induction pairs as [| nv pairs IH]; intros acc; [reflexivity |].
  rewrite reverse_cons, foldr_app. simpl. apply IH.
Qed.

Lemma new_Map_of_pairs (pairs : list (jsstring * jsstring)) :
  new_Map (map (λ nv, (VStr nv.1, VStr nv.2)) pairs) = list_to_map (reverse pairs).
Proof.
  unfold new_Map.
  transitivity (foldl (λ mp nv, <[nv.1 := nv.2]> mp) (∅ : gmap jsstring jsstring) pairs).
  - generalize (∅ : gmap jsstring jsstring).
    induction pairs as [| [name value] pairs IH]; intros acc; [reflexivity |].
    simpl. apply IH.
  - rewrite foldl_insert_reverse. generalize (reverse pairs). intros l.
    induction l as [| [name value] l IH]; [reflexivity |]. simpl. by rewrite IH.
Qed.

(** X11: an override specification written from name and value pairs
    (non-empty, no white space, no comma in a value), one token
    [Name=name,Value=value] per pair with one space between tokens, is
    read back as exactly these pairs, a later pair replacing an earlier
    one of the same name. *)
Theorem override_table_round_trip (pairs : list (jsstring * jsstring)) :
  Forall token_pair pairs →
  genOverriddenParamMap (serialize pairs) = list_to_map (reverse pairs).
Proof.
  intros Hpairs. destruct pairs as [| nv pairs]; [by vm_compute |].
  unfold genOverriddenParamMap, serialize.
  rewrite split_join;
    [| done
     | apply Forall_map; eapply Forall_impl; [exact Hpairs |];
       intros ? ?; by apply override_token_no_blank].
  rewrite map_map.
  rewrite <- new_Map_of_pairs. f_equal.
  generalize (nv :: pairs), Hpairs. clear. intros pairs.
  induction 1 as [| [name value] pairs Hnv _ IH]; [reflexivity |].
  cbn [map fst snd]. rewrite (exec_override_token name value Hnv).
  cbn [default from_option id]. unfold at_ at 1 2.
  cbn [lookup list_lookup default from_option id].
  rewrite filter_cons_True.
  - by rewrite IH.
  - simpl. destruct Hnv as (Hn0 & _). simpl in Hn0. by destruct name.
Qed.

Lemma override_table_round_trip_witness :
  genOverriddenParamMap
    (serialize [(str "A", str "1"); (str "B", str "2"); (str "A", str "3")])
  = list_to_map (reverse [(str "A", str "1"); (str "B", str "2"); (str "A", str "3")]).
Proof.
  apply override_table_round_trip.
  repeat constructor; vm_compute; try discriminate; try reflexivity.
Defined.

(** ** [deploy] *)

Lemma initAWSCLI_spec accessKeyId secretAccessKey awsRegion st :
  ∃ st', initAWSCLI accessKeyId secretAccessKey awsRegion st = (Ok tt, st')
         ∧ out st' = out st ∧ files st' = files st
         ∧ env st' !! str "AWS_DEFAULT_REGION" = Some (trim awsRegion).
Proof.
  eexists. split; [reflexivity |]. split; [reflexivity |]. split; [reflexivity |].
  simpl. rewrite lookup_insert_ne by (vm_compute; discriminate). apply lookup_insert_eq.
Qed.






(** ** [create] *)

Lemma genString_drew w L st :
  random_in_unit_interval w →
  L ≤ 65535 →
  ∃ s st', genString w L [] st = (Ok s, st') ∧ drew st st'.
Proof.
  intros Hrandom HL. pose proof (argument_limit_floor w) as Hfloor.
  destruct (genString_within w L [] st Hrandom ltac:(lia)) as (cs & st' & Hgen & Hdrew & _).
  by exists (fromCharCode cs), st'.
Qed.

Lemma console_logged l st : console l st = (Ok tt, logged st [l]).
Proof. reflexivity. Qed.

Lemma logged_logged st a b : logged (logged st a) b = logged st (a ++ b).
Proof. unfold logged. simpl. by rewrite <- app_assoc. Qed.

(** [create] up to its [try] block. *)
Lemma create_enters_try w bucket keyPrefix templatePath command st :
  random_in_unit_interval w →
  ∃ name st1,
    out st1 = out st
    ∧ env st1 !! str "AWS_DEFAULT_REGION" = Some (trim (c_awsRegion command))
    ∧ files st1 = files st
    ∧ create w bucket keyPrefix templatePath command st
      = try_catch
          (create_guarded w bucket keyPrefix templatePath command
             (str "https://s3.amazonaws.com/" ++ PATH_join w [bucket; keyPrefix; templatePath])
             (str "/tmp/" ++ name)
             (overrideTable (override command) bucket keyPrefix))
          (fun error => console (console_error error)) st1.
Proof.
  intros Hrandom. unfold create.
  destruct (initAWSCLI_spec (c_accessKeyId command) (c_secretAccessKey command)
              (c_awsRegion command) st) as (st0 & Hinit & Hout0 & Hfiles0 & Henv0).
  destruct (genString_drew w 32 st0 Hrandom ltac:(lia))
    as (name & st1 & Hname & Henv1 & Hout1 & Hfiles1).
  exists name, st1. split; [congruence |]. split; [by rewrite Henv1 |].
  split; [congruence |].
  by rewrite (bind_ok _ _ _ _ _ Hinit), (bind_ok _ _ _ _ _ Hname).
Qed.

(** [loadTemplateFromS3], by what the shell and the file system answer. *)
Lemma loadTemplateFromS3_runs w bucket keyPrefix templateKey st :
  random_in_unit_interval w →
  ∃ name st1,
    env st1 = env st ∧ out st1 = out st ∧ files st1 = files st
    ∧ loadTemplateFromS3 w bucket keyPrefix templateKey st
      = let command := str "aws s3api get-object --bucket " ++ bucket ++ str " --key "
                       ++ dquote ++ PATH_join w [keyPrefix; templateKey] ++ dquote
                       ++ str " " ++ str "/tmp/" ++ name in
        let told := console_info (str "Loading file from S3 using: " ++ nl ++ command) in
        if negb (exit_code (SHELL_exec w command) =? 0)
        then (Throw (Reason (stderr (SHELL_exec w command))), logged st1 [told])
        else match read_template w (str "/tmp/" ++ name) with
             | Done t => (Ok t, logged st1 [told; console_info (str "File object is loaded.")])
             | Failed e =>
                 (Fatal e, logged st1 [told; console_info (str "File object is loaded.")])
             end.
Proof.
  intros Hrandom.
  destruct (genString_drew w 32 st Hrandom ltac:(lia))
    as (name & st1 & Hname & Henv & Hout & Hfiles).
  exists name, st1. split; [exact Henv |]. split; [exact Hout |]. split; [exact Hfiles |].
  unfold loadTemplateFromS3. rewrite (bind_ok _ _ _ _ _ Hname).
  cbv zeta. unfold bind at 1. rewrite console_logged.
  destruct (negb (exit_code (SHELL_exec w _) =? 0)); [reflexivity |].
  unfold bind. rewrite console_logged, logged_logged.
  by destruct (read_template w (str "/tmp/" ++ name)).
Qed.

(** X14: when the download of the template fails, [create] hands the
    error text of the command to [console.error] and stops there: the
    parameter file is not read, no file is written, no stack is created,
    and [main] ends with its closing line. *)
Theorem create_catches_failed_download
    (w : World) (bucket keyPrefix templatePath : jsstring) (command : create_options)
    (st : state) :
  random_in_unit_interval w →
  shell_fails w →
  ∃ shell_command st',
    main w (Create bucket keyPrefix templatePath command) st = (Ok tt, st')
    ∧ files st' = files st
    ∧ out st' = out st ++
        [console_info (str "Loading template from:" ++ nl ++ str "https://s3.amazonaws.com/"
                       ++ PATH_join w [bucket; keyPrefix; templatePath]);
         console_info (str "Loading file from S3 using: " ++ nl ++ shell_command);
         console_error (Reason (stderr (SHELL_exec w shell_command)));
         console_log (str "program ends.")].
Proof.
  intros Hrandom Hshell. unfold main, parseAsync.
  destruct (create_enters_try w bucket keyPrefix templatePath command st Hrandom)
    as (name & st1 & Hout1 & _ & Hfiles1 & Hcreate).
  unfold bind at 1. rewrite Hcreate. unfold try_catch, create_guarded.
  unfold bind at 1. rewrite console_logged.
  destruct (loadTemplateFromS3_runs w bucket keyPrefix templatePath
              (logged st1 [console_info (str "Loading template from:" ++ nl
                                         ++ str "https://s3.amazonaws.com/"
                                         ++ PATH_join w [bucket; keyPrefix; templatePath])])
              Hrandom) as (name2 & st2 & _ & Hout2 & Hfiles2 & Hload).
  unfold bind at 1. rewrite Hload. cbv zeta.
  destruct (Z.eqb_spec (exit_code (SHELL_exec w
              (str "aws s3api get-object --bucket " ++ bucket ++ str " --key "
               ++ dquote ++ PATH_join w [keyPrefix; templatePath] ++ dquote
               ++ str " " ++ str "/tmp/" ++ name2))) 0) as [E | _];
    [by apply Hshell in E |].
  cbn [negb]. rewrite !console_logged, !logged_logged.
  eexists _, _. split; [reflexivity |].
  split; [cbn [files logged]; by rewrite Hfiles2 |].
  simpl. rewrite Hout2. simpl. rewrite Hout1. by rewrite <- !app_assoc.
Qed.

Lemma failing_shell_fails : shell_fails failing_world.
Proof. intros command. discriminate. Qed.

Lemma create_catches_failed_download_witness :
  ∃ shell_command st',
    main failing_world
      (Create (str "bucket") (str "prefix") (str "template.json")
         {| c_accessKeyId := str "id"; c_secretAccessKey := str "secret";
            c_awsRegion := str "us-east-1"; paramFile := Some (str "params.json");
            override := None |}) initial = (Ok tt, st')
    ∧ files st' = files initial
    ∧ out st' = out initial ++
        [console_info (str "Loading template from:" ++ nl ++ str "https://s3.amazonaws.com/"
                       ++ PATH_join failing_world
                            [str "bucket"; str "prefix"; str "template.json"]);
         console_info (str "Loading file from S3 using: " ++ nl ++ shell_command);
         console_error (Reason (stderr (SHELL_exec failing_world shell_command)));
         console_log (str "program ends.")].
Proof.
  apply (create_catches_failed_download failing_world (str "bucket") (str "prefix")
           (str "template.json") _ initial).
  - exact sample_random_ok.
  - exact failing_shell_fails.
Defined.

Lemma sample_shell_succeeds_everywhere (w : World) :
  SHELL_exec w = SHELL_exec sample_world → shell_succeeds w.
Proof. intros E command. by rewrite E. Qed.

(** The [try] block of [create] once the template is read. *)
Lemma create_guarded_loads w bucket keyPrefix templatePath command templateUrl paramFilePath
    table tpl st :
  random_in_unit_interval w →
  shell_succeeds w →
  (∀ path, read_template w path = Done tpl) →
  ∃ download st1,
    env st1 = env st ∧ out st1 = out st ∧ files st1 = files st
    ∧ create_guarded w bucket keyPrefix templatePath command templateUrl paramFilePath table st
      = (let* paramJSON :=
           match paramFile command with
           | Some f => if truthy (VStr f) then of_answer (read_params w f) else ret None
           | None => ret None
           end in
         let* resolved := parseParams w (Parameters tpl) table paramJSON in
         run saveJsonToFile w paramFilePath resolved in
         run createCloudFormationStack w
               (str "FortiGate-Autoscale-CI-" ++ Z_to_str (Date_now w))
               templateUrl paramFilePath true in
         ret tt)
          (logged st1
             [console_info (str "Loading template from:" ++ nl ++ templateUrl);
              console_info (str "Loading file from S3 using: " ++ nl ++ download);
              console_info (str "File object is loaded.");
              console_info (str "Parsing template parameters:")]).
Proof.
  intros Hrandom Hshell Hread. unfold create_guarded.
  unfold bind at 1. rewrite console_logged.
  destruct (loadTemplateFromS3_runs w bucket keyPrefix templatePath
              (logged st [console_info (str "Loading template from:" ++ nl ++ templateUrl)])
              Hrandom) as (name & st1 & Henv & Hout & Hfiles & Hload).
  unfold bind at 1. rewrite Hload. cbv zeta. rewrite Hshell, Hread. cbn [Z.eqb negb].
  unfold bind at 1. rewrite console_logged, logged_logged.
  eexists _, {| drawn := drawn st1; env := env st1; out := out st;
        files := files st1 |}.
  split; [exact Henv |]. split; [reflexivity |]. split; [exact Hfiles |].
  f_equal. unfold logged. simpl. rewrite Hout. simpl. by rewrite <- !app_assoc.
Qed.

(** X15: when the downloaded template cannot be read or parsed, the
    exception is raised inside the callback of the shell command, where
    the [try] block of [create] does not reach: the run ends with that
    exception, [console.error] is not called, no file is written and the
    closing line of [main] is not written. *)
Theorem unreadable_template_escapes_create
    (w : World) (bucket keyPrefix templatePath : jsstring) (command : create_options)
    (e : exn) (st : state) :
  random_in_unit_interval w →
  shell_succeeds w →
  (∀ path, read_template w path = Failed e) →
  ∃ download st',
    main w (Create bucket keyPrefix templatePath command) st = (Fatal e, st')
    ∧ files st' = files st
    ∧ out st' = out st ++
        [console_info (str "Loading template from:" ++ nl ++ str "https://s3.amazonaws.com/"
                       ++ PATH_join w [bucket; keyPrefix; templatePath]);
         console_info (str "Loading file from S3 using: " ++ nl ++ download);
         console_info (str "File object is loaded.")].
Proof.
  intros Hrandom Hshell Hread. unfold main, parseAsync.
  destruct (create_enters_try w bucket keyPrefix templatePath command st Hrandom)
    as (name & st1 & Hout1 & _ & Hfiles1 & Hcreate).
  unfold bind at 1. rewrite Hcreate. unfold try_catch, create_guarded.
  unfold bind at 1. rewrite console_logged.
  destruct (loadTemplateFromS3_runs w bucket keyPrefix templatePath
              (logged st1 [console_info (str "Loading template from:" ++ nl
                                         ++ str "https://s3.amazonaws.com/"
                                         ++ PATH_join w [bucket; keyPrefix; templatePath])])
              Hrandom) as (name2 & st2 & _ & Hout2 & Hfiles2 & Hload).
  unfold bind at 1. rewrite Hload. cbv zeta. rewrite Hshell, Hread. cbn [Z.eqb negb].
  eexists _, _. split; [reflexivity |].
  split; [cbn [files logged]; by rewrite Hfiles2 |].
  simpl. rewrite Hout2. simpl. rewrite Hout1. by rewrite <- !app_assoc.
Qed.

Lemma unreadable_template_escapes_create_witness :
  ∃ st', main unreadable_world
           (Create (str "bucket") (str "prefix") (str "template.json")
              (sample_options (Some (str "params.json")))) initial
         = (Fatal (IOError (str "ENOENT")), st').
Proof.
  destruct (unreadable_template_escapes_create unreadable_world (str "bucket") (str "prefix")
              (str "template.json") (sample_options (Some (str "params.json")))
              (IOError (str "ENOENT")) initial) as (download & st' & Hmain & _).
  - exact sample_random_ok.
  - by apply sample_shell_succeeds_everywhere.
  - reflexivity.
  - exists st'. exact Hmain.
Defined.

(** What [create] has written and set once the template is loaded. *)
Lemma create_loads w bucket keyPrefix templatePath command tpl st :
  random_in_unit_interval w →
  shell_succeeds w →
  (∀ path, read_template w path = Done tpl) →
  ∃ download name st1,
    out st1 = out st
    ∧ env st1 !! str "AWS_DEFAULT_REGION" = Some (trim (c_awsRegion command))
    ∧ files st1 = files st
    ∧ create w bucket keyPrefix templatePath command st
        = try_catch
            (let* paramJSON :=
               match paramFile command with
               | Some f => if truthy (VStr f) then of_answer (read_params w f) else ret None
               | None => ret None
               end in
             let* resolved :=
               parseParams w (Parameters tpl)
                 (overrideTable (override command) bucket keyPrefix) paramJSON in
             run saveJsonToFile w (str "/tmp/" ++ name) resolved in
             run createCloudFormationStack w
                   (str "FortiGate-Autoscale-CI-" ++ Z_to_str (Date_now w))
                   (str "https://s3.amazonaws.com/"
                    ++ PATH_join w [bucket; keyPrefix; templatePath])
                   (str "/tmp/" ++ name) true in
             ret tt)
            (fun error => console (console_error error))
            (logged st1
               [console_info (str "Loading template from:" ++ nl
                              ++ str "https://s3.amazonaws.com/"
                              ++ PATH_join w [bucket; keyPrefix; templatePath]);
                console_info (str "Loading file from S3 using: " ++ nl ++ download);
                console_info (str "File object is loaded.");
                console_info (str "Parsing template parameters:")]).
Proof.
  intros Hrandom Hshell Hread.
  destruct (create_enters_try w bucket keyPrefix templatePath command st Hrandom)
    as (name & st1 & Hout1 & Henv1 & Hfiles1 & Hcreate).
  destruct (create_guarded_loads w bucket keyPrefix templatePath command
              (str "https://s3.amazonaws.com/" ++ PATH_join w [bucket; keyPrefix; templatePath])
              (str "/tmp/" ++ name) (overrideTable (override command) bucket keyPrefix)
              tpl st1 Hrandom Hshell Hread)
    as (download & st2 & Henv2 & Hout2 & Hfiles2 & Hguarded).
  exists download, name, st2. split; [congruence |]. split; [by rewrite Henv2 |].
  split; [congruence |].
  rewrite Hcreate. unfold try_catch. by rewrite Hguarded.
Qed.

(** X16: without a document to resolve (no parameter file named, an empty
    name, or a file that holds [null]) [create] loads the template, then
    fails with a [TypeError] that it hands to [console.error]: no file is
    written and no stack is created. *)
Theorem create_without_document_stops
    (w : World) (bucket keyPrefix templatePath : jsstring) (command : create_options)
    (tpl : template) (st : state) :
  random_in_unit_interval w →
  shell_succeeds w →
  (∀ path, read_template w path = Done tpl) →
  no_document w command →
  ∃ download st',
    main w (Create bucket keyPrefix templatePath command) st = (Ok tt, st')
    ∧ files st' = files st
    ∧ out st' = out st ++
        [console_info (str "Loading template from:" ++ nl ++ str "https://s3.amazonaws.com/"
                       ++ PATH_join w [bucket; keyPrefix; templatePath]);
         console_info (str "Loading file from S3 using: " ++ nl ++ download);
         console_info (str "File object is loaded.");
         console_info (str "Parsing template parameters:");
         console_error TypeError;
         console_log (str "program ends.")].
Proof.
  intros Hrandom Hshell Hread Hnone. unfold main, parseAsync.
  destruct (create_loads w bucket keyPrefix templatePath command tpl st Hrandom Hshell Hread)
    as (download & name & st1 & Hout1 & _ & Hfiles1 & Hcreate).
  unfold bind at 1. rewrite Hcreate. unfold try_catch.
  assert (Hdoc : match paramFile command with
                 | Some f => if truthy (VStr f) then of_answer (read_params w f) else ret None
                 | None => ret None
                 end = ret None).
  { unfold no_document in Hnone. destruct (paramFile command) as [f |]; [| reflexivity].
    destruct Hnone as [-> | ->]; [reflexivity |]. by destruct (truthy (VStr f)). }
  rewrite Hdoc. unfold bind at 1. unfold ret at 1. unfold bind at 1.
  unfold parseParams at 1. unfold throw at 1.
  rewrite !console_logged, !logged_logged.
  eexists _, _. split; [reflexivity |].
  split; [exact Hfiles1 |].
  simpl. rewrite Hout1. by rewrite <- ?app_assoc.
Qed.

Lemma create_without_document_stops_witness :
  ∃ st', main sample_world
           (Create (str "bucket") (str "prefix") (str "template.json") (sample_options None))
           initial = (Ok tt, st')
         ∧ last (out st') = Some (console_log (str "program ends.")).
Proof.
  destruct (create_without_document_stops sample_world (str "bucket") (str "prefix")
              (str "template.json") (sample_options None)
              {| Parameters :=
                   Some {[ str "DBPassword" := VObj [(str "Default", VStr (str "x"))] ]} |}
              initial) as (download & st' & Hmain & _ & Hout).
  - exact sample_random_ok.
  - by apply sample_shell_succeeds_everywhere.
  - reflexivity.
  - exact I.
  - exists st'. split; [exact Hmain |]. rewrite Hout. reflexivity.
Defined.

(** X17: a parameter file that cannot be read or parsed fails inside the
    [try] block, unlike the template: the exception is handed to
    [console.error], nothing is resolved, written or created, and [main]
    ends with its closing line. *)
Theorem unreadable_document_is_caught
    (w : World) (bucket keyPrefix templatePath : jsstring) (command : create_options)
    (tpl : template) (file : jsstring) (e : exn) (st : state) :
  random_in_unit_interval w →
  shell_succeeds w →
  (∀ path, read_template w path = Done tpl) →
  paramFile command = Some file →
  file ≠ [] →
  read_params w file = Failed e →
  ∃ download st',
    main w (Create bucket keyPrefix templatePath command) st = (Ok tt, st')
    ∧ files st' = files st
    ∧ out st' = out st ++
        [console_info (str "Loading template from:" ++ nl ++ str "https://s3.amazonaws.com/"
                       ++ PATH_join w [bucket; keyPrefix; templatePath]);
         console_info (str "Loading file from S3 using: " ++ nl ++ download);
         console_info (str "File object is loaded.");
         console_info (str "Parsing template parameters:");
         console_error e;
         console_log (str "program ends.")].
Proof.
  intros Hrandom Hshell Hread Hfile Hnamed Hparams. unfold main, parseAsync.
  destruct (create_loads w bucket keyPrefix templatePath command tpl st Hrandom Hshell Hread)
    as (download & name & st1 & Hout1 & _ & Hfiles1 & Hcreate).
  unfold bind at 1. rewrite Hcreate. unfold try_catch.
  rewrite Hfile, Hparams.
  replace (truthy (VStr file)) with true by (by destruct file).
  unfold bind at 1. unfold of_answer, throw.
  rewrite !console_logged, !logged_logged.
  eexists _, _. split; [reflexivity |].
  split; [exact Hfiles1 |].
  simpl. rewrite Hout1. by rewrite <- ?app_assoc.
Qed.

Lemma unreadable_document_is_caught_witness :
  ∃ st', main undocumented_world
           (Create (str "bucket") (str "prefix") (str "template.json")
              (sample_options (Some (str "params.json")))) initial = (Ok tt, st')
         ∧ last (out st') = Some (console_log (str "program ends.")).
Proof.
  destruct (unreadable_document_is_caught undocumented_world (str "bucket") (str "prefix")
              (str "template.json") (sample_options (Some (str "params.json")))
              {| Parameters :=
                   Some {[ str "DBPassword" := VObj [(str "Default", VStr (str "x"))] ]} |}
              (str "params.json") (IOError (str "ENOENT")) initial)
    as (download & st' & Hmain & _ & Hout).
  - exact sample_random_ok.
  - by apply sample_shell_succeeds_everywhere.
  - reflexivity.
  - reflexivity.
  - discriminate.
  - reflexivity.
  - exists st'. split; [exact Hmain |]. rewrite Hout. reflexivity.
Defined.






